(** * Sustainability simulator: metrics calculation and scenario store

    A shallow embedding of [server/routes.ts] and [server/storage.ts].

    JavaScript numbers are IEEE 754 binary64 values: they are modelled by
    Rocq's primitive [float], whose operations are specified against
    [SpecFloat] by the axioms of [FloatAxioms].  Scenario identifiers and
    timestamps are integer-valued numbers far below 2^53, where binary64
    arithmetic on integers is exact: they are modelled by [Z]. *)

From Stdlib Require Import ZArith Lia Bool List String Ascii.
From Stdlib Require Import Floats.
From Stdlib Require Import Sorting.Sorted Sorting.Permutation.
Import ListNotations.

Set Warnings "-inexact-float".

(** ** JavaScript numbers *)

Module JS.

Open Scope float_scope.

(** The Number whose value is the integer [n] (exact for |n| <= 2^53). *)
Definition of_Z (n : Z) : float :=
  SF2Prim (binary_normalize prec emax n 0 false).

(** [Math.min(...args)], ECMA-262 21.3.2.25: NaN if some argument is NaN;
    otherwise the running lowest value starts at +Infinity, and -0 is
    lower than +0. *)
Definition min_step (lowest number : float) : float :=
  match classify number, classify lowest with
  | NZero, PZero => number
  | _, _ => if number <? lowest then number else lowest
  end.

Definition Math_min (args : list float) : float :=
  if existsb is_nan args then nan else fold_left min_step args infinity.

(** [Math.max(...args)], ECMA-262 21.3.2.24: NaN if some argument is NaN;
    otherwise the running highest value starts at -Infinity, and +0 is
    higher than -0. *)
Definition max_step (highest number : float) : float :=
  match classify number, classify highest with
  | PZero, NZero => number
  | _, _ => if highest <? number then number else highest
  end.

Definition Math_max (args : list float) : float :=
  if existsb is_nan args then nan else fold_left max_step args neg_infinity.

(** floor (v + 1/2) for v = (-1)^s * m * 2^e with e < 0, computed exactly. *)
Definition round_half_up (s : bool) (m : positive) (e : Z) : Z :=
  ((2 * cond_Zopp s (Zpos m) + 2 ^ (- e)) / 2 ^ (- e + 1))%Z.

(** [Math.round(x)], ECMA-262 21.3.2.28: NaN, the infinities, the zeros and
    integral values are returned as they are; otherwise the integral Number
    closest to x, the one closer to +Infinity on a tie; a result of zero
    keeps the sign of x. *)
Definition Math_round (x : float) : float :=
  match Prim2SF x with
  | S754_finite s m e =>
      if (0 <=? e)%Z then x
      else
        let n := round_half_up s m e in
        if (n =? 0)%Z then (if s then neg_zero else zero) else of_Z n
  | _ => x
  end.

End JS.

Import JS.
Open Scope float_scope.

(** ** server/routes.ts: the metrics calculation *)

Record ProcessParameters := {
  energyConsumption : float;
  wasteGeneration : float;
  waterUsage : float;
  rawMaterials : float;
  productionVolume : float
}.

Record SustainabilityMetrics := {
  carbonFootprint : float;
  waterEfficiency : float;
  energyEfficiency : float;
  sustainabilityScore : float
}.

(** The clamped water efficiency before rounding (the source's local
    constant [waterEfficiency]). *)
Definition waterEfficiencyRaw (params : ProcessParameters) : float :=
  let waterUsagePerUnit := waterUsage params / productionVolume params in
  let baselineWaterUsage := 2.5 in
  Math_max [0; Math_min [100;
    100 - ((waterUsagePerUnit - baselineWaterUsage) / baselineWaterUsage * 100)]].

(** The clamped energy efficiency before rounding (the source's local
    constant [energyEfficiency]). *)
Definition energyEfficiencyRaw (params : ProcessParameters) : float :=
  let energyPerUnit := energyConsumption params / productionVolume params in
  let baselineEnergy := 0.5 in
  Math_max [0; Math_min [100;
    100 - ((energyPerUnit - baselineEnergy) / baselineEnergy * 100)]].

Definition calculateSustainabilityMetrics (params : ProcessParameters)
  : SustainabilityMetrics :=
  let carbonFootprint :=
    energyConsumption params * 0.0005 + wasteGeneration params * 0.001 in
  let waterEfficiency := waterEfficiencyRaw params in
  let energyEfficiency := energyEfficiencyRaw params in
  let sustainabilityScore := (waterEfficiency + energyEfficiency) / 2 in
  {| carbonFootprint := Math_round (carbonFootprint * 10) / 10;
     waterEfficiency := Math_round waterEfficiency;
     energyEfficiency := Math_round energyEfficiency;
     sustainabilityScore := Math_round sustainabilityScore |}.

Definition scenarioA : ProcessParameters :=
  {| energyConsumption := 5000; wasteGeneration := 1200; waterUsage := 25000;
     rawMaterials := 8000; productionVolume := 10000 |}.

Definition scenarioB : ProcessParameters :=
  {| energyConsumption := 3500; wasteGeneration := 800; waterUsage := 18000;
     rawMaterials := 7500; productionVolume := 10000 |}.

Close Scope float_scope.
Open Scope Z_scope.

(** ** server/storage.ts: the in-memory store *)

(** A JavaScript [Map] with number keys: an association list in insertion
    order, which is the order [Map.prototype.values] iterates in. *)
Module JSMap.
Section WithValue.
Context {V : Type}.

Definition t := list (Z * V).

Definition empty : t := [].

Fixpoint get (k : Z) (m : t) : option V :=
  match m with
  | [] => None
  | (k', v) :: m' => if k =? k' then Some v else get k m'
  end.

Definition has (k : Z) (m : t) : bool :=
  match get k m with Some _ => true | None => false end.

(** [set] on a present key replaces the value where it stands; a new key is
    appended. *)
Fixpoint set (k : Z) (v : V) (m : t) : t :=
  match m with
  | [] => [(k, v)]
  | (k', v') :: m' => if k =? k' then (k, v) :: m' else (k', v') :: set k v m'
  end.

(** [delete] returns whether the key was present. *)
Definition delete (k : Z) (m : t) : bool * t :=
  (has k m, filter (fun kv => negb (k =? fst kv)) m).

Definition keys (m : t) : list Z := map fst m.

Definition values (m : t) : list V := map snd m.

End WithValue.
Arguments t : clear implicits.
End JSMap.

(** The validated body of a create request: [InsertScenario]. *)
Record InsertScenario := {
  name : string;
  params : ProcessParameters
}.

(** A stored [Scenario]; the parameter and the metric fields are grouped. *)
Record Scenario := {
  id : Z;
  scenarioName : string;
  scenarioParams : ProcessParameters;
  scenarioMetrics : SustainabilityMetrics;
  createdAt : Z
}.

Record MemStorage := {
  scenarios : JSMap.t Scenario;
  currentId : Z
}.

(** Methods read and update the store: a state monad over [MemStorage]. *)
Definition M (A : Type) : Type := MemStorage -> A * MemStorage.

Definition ret {A} (a : A) : M A := fun s => (a, s).

Definition bind {A B} (m : M A) (k : A -> M B) : M B :=
  fun s => let (a, s') := m s in k a s'.

Notation "x <- m ;; k" := (bind m (fun x => k))
  (at level 61, m at next level, right associativity).

(** [this.currentId++] *)
Definition nextId : M Z :=
  fun s => (currentId s, {| scenarios := scenarios s; currentId := currentId s + 1 |}).

(** [this.scenarios.set(id, scenario)] *)
Definition putScenario (k : Z) (sc : Scenario) : M unit :=
  fun s => (tt, {| scenarios := JSMap.set k sc (scenarios s); currentId := currentId s |}).

(** The literal seed records, each stamped with the time read when its
    object literal was evaluated. *)
Definition defaultScenarios (t1 t2 t3 : Z)
  : list (string * ProcessParameters * SustainabilityMetrics * Z) :=
  [ ("Cenário Atual"%string,
     {| energyConsumption := 5000; wasteGeneration := 1200; waterUsage := 25000;
        rawMaterials := 8000; productionVolume := 10000 |},
     {| carbonFootprint := 2.8; waterEfficiency := 72; energyEfficiency := 85;
        sustainabilityScore := 76 |}, t1);
    ("Cenário Otimizado"%string,
     {| energyConsumption := 3500; wasteGeneration := 800; waterUsage := 18000;
        rawMaterials := 7500; productionVolume := 10000 |},
     {| carbonFootprint := 2.0; waterEfficiency := 85; energyEfficiency := 92;
        sustainabilityScore := 89 |}, t2);
    ("Cenário Verde"%string,
     {| energyConsumption := 2500; wasteGeneration := 600; waterUsage := 15000;
        rawMaterials := 7000; productionVolume := 10000 |},
     {| carbonFootprint := 1.4; waterEfficiency := 92; energyEfficiency := 96;
        sustainabilityScore := 94 |}, t3) ]%float.

Definition addDefault (d : string * ProcessParameters * SustainabilityMetrics * Z)
  : M unit :=
  let '(n, p, m, t) := d in
  i <- nextId ;;
  putScenario i {| id := i; scenarioName := n; scenarioParams := p;
                   scenarioMetrics := m; createdAt := t |}.

Fixpoint forEach {A} (f : A -> M unit) (l : list A) : M unit :=
  match l with
  | [] => ret tt
  | a :: l' => _ <- f a ;; forEach f l'
  end.

Definition initializeDefaultScenarios (t1 t2 t3 : Z) : M unit :=
  forEach addDefault (defaultScenarios t1 t2 t3).

(** [new MemStorage()]; [t1 t2 t3] are the three clock readings. *)
Definition newMemStorage (t1 t2 t3 : Z) : MemStorage :=
  snd (initializeDefaultScenarios t1 t2 t3
         {| scenarios := JSMap.empty; currentId := 1 |}).

Definition getScenario (i : Z) : M (option Scenario) :=
  fun s => (JSMap.get i (scenarios s), s).

(** [Array.prototype.sort] with a comparator: a stable sort (ECMA-262
    23.1.3.30), here by insertion; [a] is placed before [b] when
    [compareFn a b <= 0]. *)
Fixpoint sort_insert {A} (compareFn : A -> A -> Z) (a : A) (l : list A) : list A :=
  match l with
  | [] => [a]
  | b :: l' => if compareFn a b <=? 0 then a :: b :: l'
               else b :: sort_insert compareFn a l'
  end.

Fixpoint Array_sort {A} (compareFn : A -> A -> Z) (l : list A) : list A :=
  match l with
  | [] => []
  | a :: l' => sort_insert compareFn a (Array_sort compareFn l')
  end.

Definition getAllScenarios : M (list Scenario) :=
  fun s => (Array_sort (fun a b => createdAt b - createdAt a)
              (JSMap.values (scenarios s)), s).

(** [now] is the clock reading of [new Date()]. *)
Definition createScenario (insertScenario : InsertScenario * SustainabilityMetrics)
  (now : Z) : M Scenario :=
  i <- nextId ;;
  let scenario := {| id := i; scenarioName := name (fst insertScenario);
                     scenarioParams := params (fst insertScenario);
                     scenarioMetrics := snd insertScenario;
                     createdAt := now |} in
  _ <- putScenario i scenario ;;
  ret scenario.

Definition deleteScenario (i : Z) : M bool :=
  fun s => let (b, m) := JSMap.delete i (scenarios s) in
           (b, {| scenarios := m; currentId := currentId s |}).

(** ** server/routes.ts: the request handlers *)

(** [parseInt(string)] with no radix, ECMA-262 19.2.5, on strings of code
    units below 256.  [None] stands for NaN. *)
Module ParseInt.

Definition isWhiteSpace (c : ascii) : bool :=
  let n := Z.of_nat (nat_of_ascii c) in
  ((9 <=? n) && (n <=? 13)) || (n =? 32) || (n =? 160).

Fixpoint trimStart (s : string) : string :=
  match s with
  | String c s' => if isWhiteSpace c then trimStart s' else s
  | EmptyString => s
  end.

(** The value of [c] as a digit of radix [R], if it is one. *)
Definition digit (R : Z) (c : ascii) : option Z :=
  let n := Z.of_nat (nat_of_ascii c) in
  let v := if (48 <=? n) && (n <=? 57) then Some (n - 48)
           else if (97 <=? n) && (n <=? 122) then Some (n - 87)
           else if (65 <=? n) && (n <=? 90) then Some (n - 55)
           else None in
  match v with
  | Some d => if d <? R then Some d else None
  | None => None
  end.

(** The integer written by the longest prefix of radix-[R] digits; [acc] is
    the value read so far, [None] while no digit has been read. *)
Fixpoint digits (R : Z) (s : string) (acc : option Z) : option Z :=
  match s with
  | String c s' =>
      match digit R c with
      | Some d => digits R s' (Some (match acc with Some a => a * R + d | None => d end))
      | None => acc
      end
  | EmptyString => acc
  end.

Definition parseInt (inputString : string) : option Z :=
  let str := trimStart inputString in
  let '(sign, str) :=
    match str with
    | String "-" rest => (-1, rest)
    | String "+" rest => (1, rest)
    | _ => (1, str)
    end in
  let '(R, str) :=
    match str with
    | String "0" (String "x" rest) => (16, rest)
    | String "0" (String "X" rest) => (16, rest)
    | _ => (10, str)
    end in
  match digits R str None with
  | Some mathInt => Some (sign * mathInt)
  | None => None
  end.

End ParseInt.

Import ParseInt.

Inductive body :=
| JsonScenarios (l : list Scenario)
| JsonScenario (sc : Scenario)
| JsonMetrics (m : SustainabilityMetrics)
| JsonMessage (message : string).

Record response := {
  status : Z;
  json : body
}.

(** Modelled from the spec: the constraint on a number field of the schemas
    of shared/schema, which is not part of the sources; sections 3 and 6 of
    the specification ask for non-negative numbers. *)
Definition nonNegative (x : float) : bool :=
  (is_finite x && (0 <=? x))%float.

(** Modelled from the spec: [processParametersSchema] of shared/schema,
    which is not part of the sources; sections 3 and 6 of the specification
    give its constraints (non-negative numbers, positive productionVolume).
    [None] stands for a thrown [ZodError]. *)
Definition processParametersSchema (b : ProcessParameters)
  : option ProcessParameters :=
  if nonNegative (energyConsumption b) && nonNegative (wasteGeneration b)
     && nonNegative (waterUsage b) && nonNegative (rawMaterials b)
     && nonNegative (productionVolume b) && (0 <? productionVolume b)%float
  then Some b else None.

(** Modelled from the spec: [insertScenarioSchema] of shared/schema, which
    is not part of the sources; the specification adds a non-empty name to
    the constraints on the parameters.  [None] stands for a thrown
    [ZodError]. *)
Definition insertScenarioSchema (b : InsertScenario) : option InsertScenario :=
  match name b, processParametersSchema (params b) with
  | String _ _, Some _ => Some b
  | _, _ => None
  end.

(** [res.json(x)] answers with status 200.  No operation of the store or of
    the calculation throws, so the handlers' [catch] branches that answer
    500 are never taken and are left out. *)
Definition res_json (b : body) : response := {| status := 200; json := b |}.

Definition res_status (code : Z) (message : string) : response :=
  {| status := code; json := JsonMessage message |}.

(** GET /api/scenarios *)
Definition handleGetScenarios : M response :=
  l <- getAllScenarios ;;
  ret (res_json (JsonScenarios l)).

(** GET /api/scenarios/:id *)
Definition handleGetScenario (idParam : string) : M response :=
  match parseInt idParam with
  | None => ret (res_status 400 "Invalid scenario ID")
  | Some i =>
      scenario <- getScenario i ;;
      match scenario with
      | None => ret (res_status 404 "Scenario not found")
      | Some sc => ret (res_json (JsonScenario sc))
      end
  end.

(** POST /api/calculate-metrics *)
Definition handleCalculateMetrics (reqBody : ProcessParameters) : M response :=
  match processParametersSchema reqBody with
  | None => ret (res_status 400 "Invalid parameters")
  | Some p => ret (res_json (JsonMetrics (calculateSustainabilityMetrics p)))
  end.

(** POST /api/scenarios *)
Definition handleCreateScenario (reqBody : InsertScenario) (now : Z) : M response :=
  match insertScenarioSchema reqBody with
  | None => ret (res_status 400 "Invalid scenario data")
  | Some scenarioData =>
      let metrics := calculateSustainabilityMetrics (params scenarioData) in
      scenario <- createScenario (scenarioData, metrics) now ;;
      ret (res_json (JsonScenario scenario))
  end.

(** DELETE /api/scenarios/:id *)
Definition handleDeleteScenario (idParam : string) : M response :=
  match parseInt idParam with
  | None => ret (res_status 400 "Invalid scenario ID")
  | Some i =>
      deleted <- deleteScenario i ;;
      if deleted : bool then ret (res_json (JsonMessage "Scenario deleted successfully"))
      else ret (res_status 404 "Scenario not found")
  end.

Inductive request :=
| GetScenarios
| GetScenario (idParam : string)
| PostCalculateMetrics (reqBody : ProcessParameters)
| PostScenarios (reqBody : InsertScenario) (now : Z)
| DeleteScenario (idParam : string).

Definition handle (r : request) : M response :=
  match r with
  | GetScenarios => handleGetScenarios
  | GetScenario idParam => handleGetScenario idParam
  | PostCalculateMetrics b => handleCalculateMetrics b
  | PostScenarios b now => handleCreateScenario b now
  | DeleteScenario idParam => handleDeleteScenario idParam
  end.

(** The server answers the requests of a list in order. *)
Fixpoint serve (rs : list request) : M (list response) :=
  match rs with
  | [] => ret []
  | r :: rs' => a <- handle r ;; l <- serve rs' ;; ret (a :: l)
  end.

(** The stores the server can be in: the one built at start-up, and what the
    handlers make of it. *)
Inductive reachable : MemStorage -> Prop :=
| reachable_new t1 t2 t3 : reachable (newMemStorage t1 t2 t3)
| reachable_handle s r : reachable s -> reachable (snd (handle r s)).

(** The calls of the [IStorage] interface. *)
Inductive call :=
| CallGet (i : Z)
| CallGetAll
| CallCreate (insertScenario : InsertScenario * SustainabilityMetrics) (now : Z)
| CallDelete (i : Z).

Inductive result :=
| RGet (o : option Scenario)
| RGetAll (l : list Scenario)
| RCreate (sc : Scenario)
| RDelete (b : bool).

Definition exec (c : call) : M result :=
  match c with
  | CallGet i => o <- getScenario i ;; ret (RGet o)
  | CallGetAll => l <- getAllScenarios ;; ret (RGetAll l)
  | CallCreate ins now => sc <- createScenario ins now ;; ret (RCreate sc)
  | CallDelete i => b <- deleteScenario i ;; ret (RDelete b)
  end.

Fixpoint execAll (cs : list call) : M (list result) :=
  match cs with
  | [] => ret []
  | c :: cs' => a <- exec c ;; l <- execAll cs' ;; ret (a :: l)
  end.

(** The stores any client of the interface can reach from a new store. *)
Inductive reachableStore : MemStorage -> Prop :=
| reachableStore_new t1 t2 t3 : reachableStore (newMemStorage t1 t2 t3)
| reachableStore_exec s c : reachableStore s -> reachableStore (snd (exec c s)).

(** The ids the create calls of a run were given, in order. *)
Fixpoint createdIds (rs : list result) : list Z :=
  match rs with
  | [] => []
  | RCreate sc :: rs' => id sc :: createdIds rs'
  | _ :: rs' => createdIds rs'
  end.

(** ** Vocabulary of the statements *)

(** [signed s x]: [x] is a zero, an infinity or a finite number of sign [s]. *)
Definition signed (s : bool) (x : spec_float) : Prop :=
  match x with
  | S754_zero s' | S754_infinity s' | S754_finite s' _ _ => s' = s
  | S754_nan => False
  end.

Definition notNaN (x : spec_float) : Prop := x <> S754_nan.

Definition isFinite (x : spec_float) : Prop :=
  match x with S754_finite _ _ _ => True | _ => False end.

(** [x] is a number that is zero or negative. *)
Definition nonpos (x : spec_float) : Prop :=
  match x with S754_zero _ => True | _ => signed true x end.

(** The value [m * 2^e] on a fixed-point grid: scaled by [2^K], an integer
    for every exponent the operations of binary64 go through. *)
Definition K : Z := 3000.

Definition val (m e : Z) : Z := m * 2 ^ (e + K).

(** The source's local constants [waterUsagePerUnit] and [energyPerUnit]. *)
Definition waterUsagePerUnit (p : ProcessParameters) : float :=
  (waterUsage p / productionVolume p)%float.

Definition energyPerUnit (p : ProcessParameters) : float :=
  (energyConsumption p / productionVolume p)%float.

(** The efficiency formula before clamping, and the clamp. *)
Definition score (usage volume baseline : float) : float :=
  (100 - ((usage / volume - baseline) / baseline * 100))%float.

Definition clamp (x : float) : float := Math_max [0; Math_min [100; x]]%float.

Definition waterScore (p : ProcessParameters) : float :=
  score (waterUsage p) (productionVolume p) 2.5.

Definition energyScore (p : ProcessParameters) : float :=
  score (energyConsumption p) (productionVolume p) 0.5.

(** What the calculation needs of its input: usages that are numbers and a
    finite positive production volume. *)
Definition wellFormed (p : ProcessParameters) : bool :=
  negb (is_nan (energyConsumption p)) && negb (is_nan (waterUsage p))
  && is_finite (productionVolume p) && (0 <? productionVolume p)%float.

(** [x] is the Number of an integer between [lo] and [hi]. *)
Definition integerIn (lo hi : Z) (x : float) : Prop :=
  exists n, lo <= n <= hi /\ x = of_Z n.

(** An input with no water usage and ten times the baseline energy usage. *)
Definition paramsFar : ProcessParameters :=
  {| energyConsumption := 5000; wasteGeneration := 0; waterUsage := 0;
     rawMaterials := 0; productionVolume := 1000 |}.

(** An input whose efficiencies round apart from their average. *)
Definition paramsTie : ProcessParameters :=
  {| energyConsumption := 997; wasteGeneration := 0; waterUsage := 0;
     rawMaterials := 0; productionVolume := 1000 |}.

(** The representation invariant of a store: keys are distinct, every
    record is filed under its own id, and the counter is above every key. *)
Definition storeInv (s : MemStorage) : Prop :=
  NoDup (JSMap.keys (scenarios s))
  /\ Forall (fun kv => id (snd kv) = fst kv /\ 1 <= fst kv < currentId s)
       (scenarios s)
  /\ 4 <= currentId s.

Definition isCreate (c : call) : bool :=
  match c with CallCreate _ _ => true | _ => false end.

(** The metrics of a record are the calculation on its own parameters. *)
Definition consistent (sc : Scenario) : Prop :=
  scenarioMetrics sc = calculateSustainabilityMetrics (scenarioParams sc).

(** The record carries the literal name, parameters and metrics of a seed. *)
Definition isSeed (sc : Scenario) : Prop :=
  In (scenarioName sc, scenarioParams sc, scenarioMetrics sc)
     (map fst (defaultScenarios 0 0 0)).

Definition metricsInv (s : MemStorage) : Prop :=
  Forall (fun kv => if fst kv <=? 3 then isSeed (snd kv) else consistent (snd kv))
    (scenarios s).

(** The text of a positive integer in decimal: digits only, not all zero. *)
Definition positiveIntegerText (idParam : string) : bool :=
  match idParam with
  | EmptyString => false
  | _ =>
      forallb (fun c => match digit 10 c with Some _ => true | None => false end)
        (list_ascii_of_string idParam)
      && match digits 10 idParam None with Some n => 0 <? n | None => false end
  end.

(** ** Vocabulary of the further properties *)

(** Bits were lost: the round or the sticky bit of the record is set. *)
Definition inexact (r : shr_record) : bool := shr_r r || shr_s r.

(** [x] is +0, or a finite number above zero of at most the value of the
    canonical [mc * 2^ec]. *)
Definition atMost (mc : positive) (ec : Z) (x : spec_float) : Prop :=
  match x with
  | S754_zero s => s = false
  | S754_finite s m e => s = false /\ val (Zpos m) e <= val (Zpos mc) ec
  | _ => False
  end.

(** The mantissa of 100 (exponent -46) and of 200 (exponent -45). *)
Definition m100 : positive := 7036874417766400.

(** [x] is a zero or a number above zero. *)
Definition notNeg (x : spec_float) : Prop :=
  match x with
  | S754_zero _ => True
  | S754_infinity s | S754_finite s _ _ => s = false
  | S754_nan => False
  end.

(** [x] is a finite number above zero. *)
Definition positiveFinite (x : spec_float) : Prop :=
  match x with S754_finite false _ _ => True | _ => False end.

(** An input with a production volume of 0. *)
Definition paramsZeroVolume : ProcessParameters :=
  {| energyConsumption := 0; wasteGeneration := 10; waterUsage := 5;
     rawMaterials := 1; productionVolume := 0 |}.

Definition isDeleted (r : result) : bool :=
  match r with RDelete true => true | _ => false end.

Definition isCreated (r : result) : bool :=
  match r with RCreate _ => true | _ => false end.

(** Newest first; among equal stamps, the lower id first. *)
Definition listedBefore (a b : Scenario) : Prop :=
  createdAt b < createdAt a \/ (createdAt a = createdAt b /\ id a < id b).

(** The decimal digit of a value below ten. *)
Definition digitChar (d : Z) : ascii := ascii_of_nat (Z.to_nat (48 + d)).

(** The decimal text of a non-negative integer, most significant digit
    first: the text a client puts in the path for an id. *)
Fixpoint decimalOnto (fuel : nat) (n : Z) (rest : string) : string :=
  let text := String (digitChar (n mod 10)) rest in
  match fuel with
  | O => text
  | S fuel' => if n <? 10 then text else decimalOnto fuel' (n / 10) text
  end.

Definition decimal (n : Z) : string := decimalOnto (Z.to_nat n) n "".

Fixpoint allDigits (s : string) : Prop :=
  match s with
  | EmptyString => True
  | String c s' => (exists d, 0 <= d < 10 /\ c = digitChar d) /\ allDigits s'
  end.

(** The requests whose handlers only read the store. *)
Definition isReadOnly (r : request) : bool :=
  match r with
  | GetScenarios | GetScenario _ | PostCalculateMetrics _ => true
  | PostScenarios _ _ | DeleteScenario _ => false
  end.

(** ** The JavaScript built-ins on sample inputs *)

Section Samples.

Open Scope float_scope.

(** Ties go up, a zero result keeps the sign of the argument, and the
    largest number below one half is rounded to 0. *)
Example Math_round_samples :
  map Math_round [2.5; 3.5; -2.5; -0.5; -0.6; 0.49999999999999994; 25.5; 1e300]
  = [3; 4; -2; neg_zero; -1; 0; 26; 1e300].
Proof. vm_compute. reflexivity. Qed.

Example Math_round_special :
  map Math_round [nan; infinity; neg_infinity; 0; neg_zero]
  = [nan; infinity; neg_infinity; 0; neg_zero].
Proof. vm_compute. reflexivity. Qed.

Example Math_min_max_samples :
  [Math_max [0; neg_zero]; Math_max [neg_zero; 0]; Math_min [0; neg_zero];
   Math_min [100; 128]; Math_min [100; nan]; Math_max [0; -28]; Math_max []]
  = [0; 0; neg_zero; 100; nan; 0; neg_infinity].
Proof. vm_compute. reflexivity. Qed.

Example parseInt_samples :
  map parseInt ["42"; "  -7"; "+3"; "0x1f"; "-0X10"; "12abc"; "1.5"; "0";
                "abc"; ""; "0x"; "-"; ".5"]%string
  = [Some 42; Some (-7); Some 3; Some 31; Some (-16); Some 12; Some 1; Some 0;
     None; None; None; None; None]%Z.
Proof. vm_compute. reflexivity. Qed.

(** The seeds are listed newest first; with equal stamps they keep the
    order of insertion. *)
Example getAllScenarios_samples :
  map id (fst (getAllScenarios (newMemStorage 10 30 20))) = [2; 3; 1]%Z
  /\ map id (fst (getAllScenarios (newMemStorage 5 5 5))) = [1; 2; 3]%Z.
Proof. split; reflexivity. Qed.

End Samples.

(** ** Binary64 arithmetic: when an operation yields NaN *)

Module Binary64.

Import SpecFloat.

Lemma signed_notNaN s x : signed s x -> notNaN x.
Proof. destruct x; simpl; unfold notNaN; intros; congruence || contradiction. Qed.

Lemma shr_1_nonneg r : 0 <= shr_m r -> 0 <= shr_m (shr_1 r).
Proof.
  destruct r as [m r s]; simpl.
  destruct m as [|p|p]; simpl; intros H; try lia; destruct p; simpl; lia.
Qed.

Lemma iter_shr_1_nonneg p :
  forall r, 0 <= shr_m r -> 0 <= shr_m (iter_pos shr_1 p r).
Proof.
  induction p as [p IH|p IH|]; simpl; intros r H.
  - apply IH, IH, shr_1_nonneg, H.
  - apply IH, IH, H.
  - apply shr_1_nonneg, H.
Qed.

Lemma shr_nonneg r e n : 0 <= shr_m r -> 0 <= shr_m (fst (shr r e n)).
Proof.
  intros H; destruct n; simpl; trivial. now apply iter_shr_1_nonneg.
Qed.

Lemma shr_m_of_loc m l : shr_m (shr_record_of_loc m l) = m.
Proof. destruct l as [|[]]; reflexivity. Qed.

Lemma shr_fexp_nonneg m e l :
  0 <= m -> 0 <= shr_m (fst (shr_fexp prec emax m e l)).
Proof.
  intros H; unfold shr_fexp. apply shr_nonneg. now rewrite shr_m_of_loc.
Qed.

Lemma round_nearest_even_nonneg m l : 0 <= m -> 0 <= round_nearest_even m l.
Proof.
  intros H; destruct l as [|[]]; simpl; try lia. destruct (Z.even m); lia.
Qed.

(** Rounding a non-negative mantissa never yields NaN: the result carries
    the sign it was given. *)
Lemma binary_round_aux_signed sx mx ex lx :
  0 <= mx -> signed sx (binary_round_aux prec emax sx mx ex lx).
Proof.
  intros H; unfold binary_round_aux.
  pose proof (shr_fexp_nonneg mx ex lx H) as H1.
  destruct (shr_fexp prec emax mx ex lx) as [mrs' e'] eqn:E1; simpl in H1.
  pose proof (shr_fexp_nonneg _ e' loc_Exact
                (round_nearest_even_nonneg _ (loc_of_shr_record mrs') H1)) as H2.
  destruct (shr_fexp prec emax _ e' loc_Exact) as [mrs'' e''] eqn:E2; simpl in H2.
  destruct (shr_m mrs'') as [|p|p]; simpl; trivial.
  - destruct (_ <=? _); reflexivity.
  - lia.
Qed.

Lemma binary_round_signed sx mx ex : signed sx (binary_round prec emax sx mx ex).
Proof.
  unfold binary_round.
  destruct (shl_align mx ex _) as [mz ez].
  apply binary_round_aux_signed; lia.
Qed.

Lemma binary_normalize_notNaN m e sz : notNaN (binary_normalize prec emax m e sz).
Proof.
  destruct m; simpl; [discriminate | |];
    eapply signed_notNaN, binary_round_signed.
Qed.

Lemma SFdiv_core_nonneg mx ex my ey :
  0 <= fst (fst (SFdiv_core_binary prec emax (Zpos mx) ex (Zpos my) ey)).
Proof.
  unfold SFdiv_core_binary.
  set (s := _ - _ - _).
  set (m' := match s with Z0 => _ | Zpos _ => _ | Zneg _ => _ end).
  assert (Hm : 0 <= m').
  { subst m'; destruct s; try lia. apply Z.shiftl_nonneg; lia. }
  pose proof (Z.div_pos m' (Zpos my) Hm ltac:(lia)) as Hq.
  unfold Z.div in Hq.
  destruct (Z.div_eucl m' (Zpos my)) as [q r]; simpl in *; exact Hq.
Qed.

Lemma SFdiv_notNaN x y :
  notNaN x -> isFinite y -> notNaN (SF64div x y).
Proof.
  unfold SF64div, SFdiv.
  destruct x as [sx|sx| |sx mx ex], y as [sy|sy| |sy my ey];
    simpl; intros Hx Hy; try contradiction; try discriminate; try (now elim Hx).
  pose proof (SFdiv_core_nonneg mx ex my ey) as H.
  destruct (SFdiv_core_binary prec emax (Zpos mx) ex (Zpos my) ey) as [[mz ez] lz].
  eapply signed_notNaN, binary_round_aux_signed, H.
Qed.

Lemma SFmul_notNaN x y :
  notNaN x -> isFinite y -> notNaN (SF64mul x y).
Proof.
  unfold SF64mul, SFmul.
  destruct x as [sx|sx| |sx mx ex], y as [sy|sy| |sy my ey];
    simpl; intros Hx Hy; try contradiction; try discriminate; try (now elim Hx).
  eapply signed_notNaN, binary_round_aux_signed; lia.
Qed.

Lemma SFsub_notNaN_r x y :
  notNaN x -> isFinite y -> notNaN (SF64sub x y).
Proof.
  unfold SF64sub, SFsub.
  destruct x as [sx|sx| |sx mx ex], y as [sy|sy| |sy my ey];
    simpl; intros Hx Hy; try contradiction; try discriminate; try (now elim Hx).
  apply binary_normalize_notNaN.
Qed.

Lemma SFsub_notNaN_l x y :
  isFinite x -> notNaN y -> notNaN (SF64sub x y).
Proof.
  unfold SF64sub, SFsub.
  destruct x as [sx|sx| |sx mx ex], y as [sy|sy| |sy my ey];
    simpl; intros Hx Hy; try contradiction; try discriminate; try (now elim Hy).
  apply binary_normalize_notNaN.
Qed.

End Binary64.

(** ** Primitive floats against their specification *)

Module FloatFacts.

Import SpecFloat Binary64.
Open Scope float_scope.

Lemma SFcompare_refl x : notNaN x -> SFcompare x x = Some Eq.
Proof.
  destruct x as [s|s| |s m e]; simpl; intros H; try reflexivity.
  - destruct s; reflexivity.
  - now elim H.
  - rewrite Z.compare_refl.
    change (Pos.compare_cont Eq m m) with (Pos.compare m m).
    rewrite Pos.compare_refl. destruct s; reflexivity.
Qed.

Lemma is_nan_false x : is_nan x = false <-> notNaN (Prim2SF x).
Proof.
  unfold is_nan. rewrite eqb_spec. unfold SFeqb. split.
  - intros H E. rewrite E in H. discriminate.
  - intros H. now rewrite SFcompare_refl.
Qed.

Lemma positive_finite x :
  is_finite x = true -> (0 <? x) = true -> isFinite (Prim2SF x).
Proof.
  unfold is_finite, is_infinity. rewrite ltb_spec, eqb_spec, abs_spec.
  change (Prim2SF 0) with (S754_zero false).
  change (Prim2SF infinity) with (S754_infinity false).
  destruct (Prim2SF x) as [s|s| |s m e]; simpl; trivial; try discriminate.
  rewrite orb_true_r. discriminate.
Qed.

Lemma Prim2SF_100 : Prim2SF 100 = S754_finite false 7036874417766400 (-46).
Proof. vm_compute. reflexivity. Qed.

Lemma SFcompare_finite_pos m1 e1 m2 e2 :
  SFcompare (S754_finite false m1 e1) (S754_finite false m2 e2) =
  Some match Z.compare e1 e2 with
       | Lt => Lt
       | Gt => Gt
       | Eq => Pos.compare m1 m2
       end.
Proof. reflexivity. Qed.

Lemma SFcompare_antisym x y :
  SFcompare y x = option_map CompOpp (SFcompare x y).
Proof.
  destruct x as [s|s| |s m e], y as [s'|s'| |s' m' e'];
    try destruct s; try destruct s'; try reflexivity;
    unfold SFcompare; rewrite (Z.compare_antisym e e');
    change (Pos.compare_cont Eq ?a ?b) with (Pos.compare a b);
    rewrite (Pos.compare_antisym m m');
    destruct (Z.compare e e'); simpl; try reflexivity;
    destruct (Pos.compare m m'); reflexivity.
Qed.

Lemma SFleb_not_ltb x y : SFleb x y = true -> SFltb y x = false.
Proof.
  unfold SFleb, SFltb. rewrite (SFcompare_antisym x y).
  destruct (SFcompare x y) as [[]|]; simpl; intros H; trivial; discriminate.
Qed.

Lemma SFleb_zero_ltb_finite x m e :
  SFleb x (S754_zero false) = true -> SFltb x (S754_finite false m e) = true.
Proof.
  unfold SFleb, SFltb.
  destruct x as [s|s| |s m' e']; try destruct s; simpl; trivial; discriminate.
Qed.

(** A positive number below a positive finite bound. *)
Lemma SFltb_between x m0 e0 :
  SFltb (S754_zero false) x = true ->
  SFltb x (S754_finite false m0 e0) = true ->
  exists m e, x = S754_finite false m e /\
    ((e < e0)%Z \/ (e = e0 /\ (Zpos m < Zpos m0)%Z)).
Proof.
  unfold SFltb.
  destruct x as [s|s| |s m e]; try destruct s; simpl; try discriminate.
  intros _ H. exists m, e. split; [reflexivity|].
  change (Pos.compare_cont Eq ?a ?b) with (Pos.compare a b) in H.
  destruct (Z.compare_spec e e0) as [E|E|E]; try discriminate.
  - right. split; [exact E|].
    destruct (Pos.compare_spec m m0); try discriminate. lia.
  - left. exact E.
Qed.

Lemma score_notNaN usage volume baseline :
  is_nan usage = false -> isFinite (Prim2SF volume) ->
  isFinite (Prim2SF baseline) ->
  is_nan (score usage volume baseline) = false.
Proof.
  intros Hu Hv Hb. apply is_nan_false in Hu. apply is_nan_false.
  unfold score. rewrite sub_spec, mul_spec, div_spec, sub_spec, div_spec.
  apply SFsub_notNaN_l; [vm_compute; exact I|].
  apply SFmul_notNaN; [|vm_compute; exact I].
  apply SFdiv_notNaN; trivial.
  apply SFsub_notNaN_r; trivial.
  apply SFdiv_notNaN; trivial.
Qed.

Lemma Math_min_100 x :
  is_nan x = false -> Math_min [100; x] = if x <? 100 then x else 100.
Proof.
  intros H. unfold Math_min. cbn [existsb fold_left]. rewrite H.
  change (is_nan 100) with false. cbn [orb].
  change (min_step infinity 100) with 100.
  unfold min_step. change (classify 100) with PNormal.
  destruct (classify x); reflexivity.
Qed.

Lemma Math_max_0 x :
  is_nan x = false -> Math_max [0; x] = if 0 <? x then x else 0.
Proof.
  intros H. unfold Math_max. cbn [existsb fold_left]. rewrite H.
  change (is_nan 0) with false. cbn [orb].
  change (max_step neg_infinity 0) with 0.
  unfold max_step. change (classify 0) with PZero.
  destruct (classify x); reflexivity.
Qed.

(** Clamping a number that is not NaN. *)
Lemma clamp_eq x :
  is_nan x = false ->
  clamp x = let c := if x <? 100 then x else 100 in if 0 <? c then c else 0.
Proof.
  intros H. unfold clamp. rewrite (Math_min_100 x H).
  apply Math_max_0. destruct (x <? 100); [exact H | reflexivity].
Qed.

Lemma clamp_cases x :
  is_nan x = false ->
  clamp x = 0 \/ clamp x = 100 \/
  ((0 <? clamp x) = true /\ (clamp x <? 100) = true).
Proof.
  intros H. rewrite (clamp_eq x H). cbv zeta.
  destruct (x <? 100) eqn:E1.
  - destruct (0 <? x) eqn:E2; auto.
  - change (0 <? 100) with true. cbv iota. auto.
Qed.

Lemma clamp_high x : (100 <=? x) = true -> clamp x = 100.
Proof.
  intros H.
  assert (Hn : is_nan x = false).
  { apply is_nan_false. intros E. rewrite leb_spec, E, Prim2SF_100 in H.
    discriminate. }
  rewrite (clamp_eq x Hn). cbv zeta.
  rewrite leb_spec in H. rewrite (ltb_spec x 100).
  rewrite (SFleb_not_ltb _ _ H). reflexivity.
Qed.

Lemma clamp_low x : (x <=? 0) = true -> clamp x = 0.
Proof.
  intros H.
  assert (Hn : is_nan x = false).
  { apply is_nan_false. intros E. rewrite leb_spec, E in H. discriminate. }
  rewrite (clamp_eq x Hn). cbv zeta.
  rewrite leb_spec in H. rewrite (ltb_spec x 100).
  change (Prim2SF 0) with (S754_zero false) in H.
  rewrite Prim2SF_100, (SFleb_zero_ltb_finite _ _ _ H).
  rewrite (ltb_spec 0 x). change (Prim2SF 0) with (S754_zero false).
  rewrite (SFleb_not_ltb _ _ H). reflexivity.
Qed.

Lemma digits2_pos_lt m : (Zpos m < 2 ^ Zpos (digits2_pos m))%Z.
Proof.
  induction m as [m IH|m IH|]; simpl digits2_pos;
    rewrite ?Pos2Z.inj_succ, ?Z.pow_succ_r by lia; lia.
Qed.

(** A valid binary64 mantissa has at most 53 bits. *)
Lemma valid_mantissa_lt s m e :
  valid_binary prec emax (S754_finite s m e) = true -> (Zpos m < 2 ^ 53)%Z.
Proof.
  simpl. unfold bounded, canonical_mantissa, fexp.
  intros H. apply andb_prop in H. destruct H as [H _].
  apply Z.eqb_eq in H.
  pose proof (digits2_pos_lt m) as Hd.
  assert (Hle : (Zpos (digits2_pos m) <= 53)%Z) by (unfold prec in H; lia).
  pose proof (Z.pow_le_mono_r 2 _ 53 ltac:(lia) Hle). lia.
Qed.

Lemma round_half_up_range m e :
  (e <= -46)%Z -> (Zpos m < 2 ^ 53)%Z ->
  (e = -46 -> Zpos m < 7036874417766400)%Z ->
  (0 <= round_half_up false m e <= 100)%Z.
Proof.
  intros He Hm H46. unfold round_half_up. simpl cond_Zopp.
  replace (- e + 1)%Z with (Z.succ (- e)) by lia.
  rewrite Z.pow_succ_r by lia.
  assert (Hk : (2 ^ 46 <= 2 ^ (- e))%Z) by (apply Z.pow_le_mono_r; lia).
  change (2 ^ 46)%Z with 70368744177664%Z in Hk.
  change (2 ^ 53)%Z with 9007199254740992%Z in Hm.
  set (P := (2 ^ (- e))%Z) in *.
  split.
  - apply Z.div_pos; lia.
  - apply Z.lt_succ_r, Z.div_lt_upper_bound; [lia|].
    destruct (Z.eq_dec e (-46)) as [E|E].
    + specialize (H46 E). subst e. subst P.
      change (2 ^ (- -46))%Z with 70368744177664%Z. lia.
    + assert (Hk' : (2 ^ 47 <= P)%Z) by (apply Z.pow_le_mono_r; lia).
      change (2 ^ 47)%Z with 140737488355328%Z in Hk'. lia.
Qed.

(** Rounding a clamped efficiency gives an integer between 0 and 100. *)
Lemma Math_round_clamped x :
  x = 0 \/ x = 100 \/ ((0 <? x) = true /\ (x <? 100) = true) ->
  exists n, (0 <= n <= 100)%Z /\ Math_round x = of_Z n.
Proof.
  intros [H|[H|[H0 H100]]].
  - subst x. exists 0%Z. split; [lia | reflexivity].
  - subst x. exists 100%Z. split; [lia | reflexivity].
  - pose proof (Prim2SF_valid x) as Hv.
    rewrite ltb_spec in H0, H100. unfold Math_round.
    change (Prim2SF 0) with (S754_zero false) in H0.
    rewrite Prim2SF_100 in H100.
    destruct (SFltb_between _ _ _ H0 H100) as (m & e & E & Hlt).
    rewrite E in *. clear H0 H100 E.
    assert (He : (e <= -46)%Z /\ (e = -46 -> Zpos m < 7036874417766400)%Z)
      by lia.
    destruct He as [He H46].
    pose proof (round_half_up_range m e He (valid_mantissa_lt _ _ _ Hv) H46) as Hr.
    replace (0 <=? e)%Z with false by (symmetry; apply Z.leb_gt; lia).
    cbv zeta. destruct (Z.eqb_spec (round_half_up false m e) 0) as [E|E].
    + exists 0%Z. split; [lia | reflexivity].
    + exists (round_half_up false m e). split; [exact Hr | reflexivity].
Qed.

End FloatFacts.

(** ** Binary64 arithmetic: rounding does not cross a representable bound *)

Module Rounding.

Import SpecFloat Binary64 FloatFacts.
Open Scope Z_scope.

Lemma shr_1_div r : 0 <= shr_m r -> shr_m (shr_1 r) = shr_m r / 2.
Proof.
  destruct r as [m r s]; simpl.
  destruct m as [|p|p]; simpl; intros H; try lia; trivial.
  destruct p as [p|p|]; simpl.
  - apply Z.div_unique with (r := 1); lia.
  - apply Z.div_unique with (r := 0); lia.
  - reflexivity.
Qed.

Lemma iter_shr_1_div p : forall r,
  0 <= shr_m r -> shr_m (iter_pos shr_1 p r) = shr_m r / 2 ^ Zpos p.
Proof.
  induction p as [p IH|p IH|]; simpl iter_pos; intros r H.
  - rewrite IH, IH, shr_1_div; trivial.
    + rewrite !Z.div_div by lia. f_equal.
      replace (Z.pos p~1) with (1 + Z.pos p + Z.pos p) by lia.
      rewrite !Z.pow_add_r by lia. change (2 ^ 1) with 2. ring.
    + now apply shr_1_nonneg.
    + apply iter_shr_1_nonneg. now apply shr_1_nonneg.
  - rewrite IH, IH; trivial.
    + rewrite !Z.div_div by lia. f_equal.
      replace (Z.pos p~0) with (Z.pos p + Z.pos p) by lia.
      rewrite !Z.pow_add_r by lia. ring.
    + now apply iter_shr_1_nonneg.
  - rewrite shr_1_div; trivial.
Qed.

(** Shifting right truncates the mantissa and moves the exponent up. *)
Lemma shr_spec r e n :
  0 <= shr_m r ->
  shr_m (fst (shr r e n)) = shr_m r / 2 ^ Z.max 0 n
  /\ snd (shr r e n) = e + Z.max 0 n.
Proof.
  intros H. destruct n as [|p|p]; cbn [shr fst snd].
  - change (Z.max 0 0) with 0. rewrite Z.div_1_r. lia.
  - change (Z.max 0 (Z.pos p)) with (Z.pos p).
    rewrite iter_shr_1_div by trivial. lia.
  - change (Z.max 0 (Z.neg p)) with 0. rewrite Z.div_1_r. lia.
Qed.

Lemma digits2_pos_ge m : 2 ^ (Zpos (digits2_pos m) - 1) <= Zpos m.
Proof.
  induction m as [m IH|m IH|]; simpl digits2_pos; [| |simpl; lia];
    rewrite Pos2Z.inj_succ;
    replace (Z.succ (Zpos (digits2_pos m)) - 1) with (Z.succ (Zpos (digits2_pos m) - 1)) by lia;
    rewrite Z.pow_succ_r by lia; lia.
Qed.

Lemma Zdigits2_bounds m :
  0 < m -> 2 ^ (Zdigits2 m - 1) <= m < 2 ^ Zdigits2 m /\ 0 < Zdigits2 m.
Proof.
  destruct m as [|p|p]; try lia. intros _. unfold Zdigits2.
  pose proof (digits2_pos_ge p). pose proof (digits2_pos_lt p). lia.
Qed.

Lemma fexp_mono a b : a <= b -> fexp prec emax a <= fexp prec emax b.
Proof. unfold fexp. lia. Qed.

Lemma fexp_ge_emin a : -1074 <= fexp prec emax a.
Proof. unfold fexp, emin, prec, emax. lia. Qed.

(** A canonical mantissa and exponent. *)
Lemma bounded_canonical m e :
  bounded prec emax m e = true ->
  e = fexp prec emax (Zpos (digits2_pos m) + e) /\ -1074 <= e <= 971.
Proof.
  unfold bounded, canonical_mantissa. intros H.
  apply andb_prop in H. destruct H as [H1 H2].
  apply Z.eqb_eq in H1. apply Z.leb_le in H2.
  pose proof (fexp_ge_emin (Zpos (digits2_pos m) + e)).
  unfold emax, prec in *. lia.
Qed.

Lemma val_shift m e d : 0 <= d -> 0 <= e + K -> val m (e + d) = val m e * 2 ^ d.
Proof.
  intros Hd He. unfold val.
  replace (e + d + K) with ((e + K) + d) by lia.
  rewrite Z.pow_add_r by lia. lia.
Qed.

Lemma shr_fexp_spec m e l :
  0 <= m ->
  let n := Z.max 0 (fexp prec emax (Zdigits2 m + e) - e) in
  shr_m (fst (shr_fexp prec emax m e l)) = m / 2 ^ n
  /\ snd (shr_fexp prec emax m e l) = e + n.
Proof.
  intros H. unfold shr_fexp.
  pose proof (shr_spec (shr_record_of_loc m l) e
                (fexp prec emax (Zdigits2 m + e) - e)) as Hs.
  rewrite shr_m_of_loc in Hs. exact (Hs H).
Qed.

Lemma round_nearest_even_bounds m l :
  m <= round_nearest_even m l <= m + 1.
Proof. destruct l as [|[]]; simpl; try lia. destruct (Z.even m); lia. Qed.

(** Comparison of canonical positive numbers agrees with their values. *)
Lemma SFleb_val mx ex my ey :
  bounded prec emax mx ex = true -> bounded prec emax my ey = true ->
  SFleb (S754_finite false mx ex) (S754_finite false my ey) = true ->
  val (Zpos mx) ex <= val (Zpos my) ey.
Proof.
  intros Hx Hy. apply bounded_canonical in Hx, Hy.
  destruct Hx as [Hx Hxe], Hy as [Hy Hye].
  unfold SFleb. rewrite SFcompare_finite_pos. unfold val.
  assert (HA : 0 < 2 ^ (ex + K)) by (apply Z.pow_pos_nonneg; unfold K; lia).
  destruct (Z.compare_spec ex ey) as [E|E|E]; try discriminate.
  - subst ey. destruct (Pos.compare_spec mx my); try discriminate; intros _; nia.
  - intros _.
    replace (ey + K) with ((ex + K) + (ey - ex)) by lia.
    rewrite (Z.pow_add_r 2 (ex + K) (ey - ex)) by (unfold K; lia).
    assert (H2 : 2 ^ 1 <= 2 ^ (ey - ex)) by (apply Z.pow_le_mono_r; lia).
    change (2 ^ 1) with 2 in H2.
    unfold fexp, emin, prec, emax in Hx, Hy.
    assert (Hdy : Zpos (digits2_pos my) = 53) by lia.
    assert (Hdx : Zpos (digits2_pos mx) <= 53) by lia.
    pose proof (digits2_pos_ge my) as Hmy. rewrite Hdy in Hmy.
    pose proof (digits2_pos_lt mx) as Hmx.
    pose proof (Z.pow_le_mono_r 2 _ 53 ltac:(lia) Hdx) as Hp.
    change (2 ^ (53 - 1)) with 4503599627370496 in Hmy.
    change (2 ^ 53) with 9007199254740992 in Hp.
    set (A := 2 ^ (ex + K)) in *. set (P := 2 ^ (ey - ex)) in *.
    apply Z.le_trans with (9007199254740992 * A);
      [apply Z.mul_le_mono_nonneg_r; lia|].
    apply Z.le_trans with (4503599627370496 * (A * 2)); [lia|].
    apply Z.mul_le_mono_nonneg; try lia.
    apply Z.mul_le_mono_nonneg_l; lia.
Qed.

(** The rounded result is not below a canonical number that the exact
    value is not below. *)
Lemma binary_round_aux_ge mx ex lx mc ec :
  0 < mx -> - K <= ex ->
  bounded prec emax mc ec = true ->
  val (Zpos mc) ec <= val mx ex ->
  SFleb (S754_finite false mc ec) (binary_round_aux prec emax false mx ex lx) = true.
Proof.
  intros Hmx Hex Hc Hv. apply bounded_canonical in Hc. destruct Hc as [Hc Hce].
  unfold val in Hv.
  pose proof (Zdigits2_bounds mx Hmx) as [[Hdl Hdu] Hd0].
  pose proof (digits2_pos_ge mc) as Hcl.
  set (dx := Zdigits2 mx) in *. set (dc := Zpos (digits2_pos mc)) in *.
  assert (HA : 0 < 2 ^ (ex + K)) by (apply Z.pow_pos_nonneg; lia).
  assert (HC : 0 < 2 ^ (ec + K)) by (apply Z.pow_pos_nonneg; unfold K; lia).
  (* digits of the bound are at most those of the value *)
  assert (HD : dc + ec <= dx + ex).
  { assert (H1 : 2 ^ (dc - 1 + (ec + K)) <= Zpos mc * 2 ^ (ec + K)).
    { rewrite (Z.pow_add_r 2 (dc - 1) (ec + K)) by (unfold K, dc; lia). nia. }
    assert (H2 : mx * 2 ^ (ex + K) < 2 ^ (dx + (ex + K))).
    { rewrite (Z.pow_add_r 2 dx (ex + K)) by lia. nia. }
    assert (H3 : 2 ^ (dc - 1 + (ec + K)) < 2 ^ (dx + (ex + K))) by lia.
    apply Z.pow_lt_mono_r_iff in H3; lia. }
  pose proof (fexp_mono _ _ HD) as HE. rewrite <- Hc in HE.
  unfold binary_round_aux.
  pose proof (shr_fexp_spec mx ex lx ltac:(lia)) as [Hm1 He1].
  destruct (shr_fexp prec emax mx ex lx) as [mrs' e1]. cbn [fst snd] in Hm1, He1.
  fold dx in Hm1, He1.
  set (n1 := Z.max 0 (fexp prec emax (dx + ex) - ex)) in *.
  assert (Hn1 : 0 <= n1 <= dx - 1).
  { subst n1. unfold fexp, emin, prec, emax in *. unfold dc in *. lia. }
  assert (Hpn1 : 0 < 2 ^ n1) by (apply Z.pow_pos_nonneg; lia).
  assert (Hm1pos : 1 <= shr_m mrs').
  { rewrite Hm1. apply Z.div_le_lower_bound; trivial.
    pose proof (Z.pow_le_mono_r 2 n1 (dx - 1) ltac:(lia) ltac:(lia)). lia. }
  assert (Hec1 : ec <= e1) by (subst e1 n1; lia).
  assert (Hm1c : ec = e1 -> Zpos mc <= shr_m mrs').
  { intros E. rewrite Hm1. apply Z.div_le_lower_bound; trivial.
    replace (ec + K) with ((ex + K) + n1) in Hv by lia.
    rewrite (Z.pow_add_r 2 (ex + K) n1) in Hv by lia. nia. }
  pose proof (round_nearest_even_bounds (shr_m mrs') (loc_of_shr_record mrs')) as Hr.
  set (m2 := round_nearest_even (shr_m mrs') (loc_of_shr_record mrs')) in *.
  pose proof (shr_fexp_spec m2 e1 loc_Exact ltac:(lia)) as [Hmf Hef].
  destruct (shr_fexp prec emax m2 e1 loc_Exact) as [mrs'' ef]. cbn [fst snd] in Hmf, Hef.
  pose proof (Zdigits2_bounds m2 ltac:(lia)) as [[Hd2l Hd2u] Hd20].
  set (d2 := Zdigits2 m2) in *.
  set (n2 := Z.max 0 (fexp prec emax (d2 + e1) - e1)) in *.
  assert (Hn2 : 0 <= n2 <= d2 - 1).
  { subst n2. unfold fexp, emin, prec, emax in *. lia. }
  assert (Hpn2 : 0 < 2 ^ n2) by (apply Z.pow_pos_nonneg; lia).
  assert (Hmfpos : 1 <= shr_m mrs'').
  { rewrite Hmf. apply Z.div_le_lower_bound; trivial.
    pose proof (Z.pow_le_mono_r 2 n2 (d2 - 1) ltac:(lia) ltac:(lia)). lia. }
  assert (Hmfc : ec = ef -> Zpos mc <= shr_m mrs'').
  { intros E. assert (n2 = 0) by lia. assert (ec = e1) by lia.
    rewrite Hmf. replace n2 with 0 by lia. rewrite Z.div_1_r.
    specialize (Hm1c ltac:(assumption)). lia. }
  destruct (shr_m mrs'') as [|p|p]; try lia.
  destruct (_ <=? _); [|reflexivity].
  unfold SFleb. rewrite SFcompare_finite_pos.
  destruct (Z.compare_spec ec ef) as [E|E|E]; trivial; try lia.
  specialize (Hmfc E).
  destruct (Pos.compare_spec mc p); trivial; lia.
Qed.

Lemma iter_xO_val m d : Zpos (Pos.iter xO m d) = Zpos m * 2 ^ Zpos d.
Proof.
  induction d as [|d IH] using Pos.peano_ind.
  - simpl. lia.
  - rewrite Pos.iter_succ, Pos2Z.inj_xO, IH, Pos2Z.inj_succ, Z.pow_succ_r by lia.
    ring.
Qed.

(** Aligning a mantissa to a lower exponent keeps the value. *)
Lemma shl_align_val mx ex ex' :
  - K <= ex -> - K <= ex' ->
  val (Zpos (fst (shl_align mx ex ex'))) (snd (shl_align mx ex ex')) = val (Zpos mx) ex
  /\ snd (shl_align mx ex ex') = Z.min ex ex'.
Proof.
  intros H H'. unfold shl_align.
  destruct (ex' - ex) as [|d|d] eqn:E; cbn [fst snd]; try (split; [reflexivity | lia]).
  split; [|lia]. rewrite iter_xO_val. unfold val.
  replace (ex + K) with ((ex' + K) + Zpos d) by lia.
  rewrite (Z.pow_add_r 2 (ex' + K) (Zpos d)) by lia. ring.
Qed.

Lemma binary_round_ge mx ex mc ec :
  - K <= ex ->
  bounded prec emax mc ec = true ->
  val (Zpos mc) ec <= val (Zpos mx) ex ->
  SFleb (S754_finite false mc ec) (binary_round prec emax false mx ex) = true.
Proof.
  intros Hex Hc Hv. unfold binary_round.
  pose proof (fexp_ge_emin (Zpos (digits2_pos mx) + ex)) as Hf.
  destruct (shl_align_val mx ex (fexp prec emax (Zpos (digits2_pos mx) + ex)))
    as [Hval Hmin]; [lia | unfold K; lia |].
  destruct (shl_align mx ex _) as [mz ez]. cbn [fst snd] in *.
  apply binary_round_aux_ge; trivial; [lia | unfold K in *; lia | lia].
Qed.

Lemma binary_normalize_ge n e mc ec :
  - K <= e ->
  bounded prec emax mc ec = true ->
  val (Zpos mc) ec <= val n e ->
  SFleb (S754_finite false mc ec) (binary_normalize prec emax n e false) = true.
Proof.
  intros He Hc Hv.
  assert (HA : 0 < 2 ^ (e + K)) by (apply Z.pow_pos_nonneg; lia).
  assert (HC : 0 < 2 ^ (ec + K)).
  { apply bounded_canonical in Hc. apply Z.pow_pos_nonneg; unfold K; lia. }
  unfold val in Hv. destruct n as [|n|n]; try nia.
  simpl. now apply binary_round_ge.
Qed.

Lemma signed_true_le_zero x : signed true x -> SFleb x (S754_zero false) = true.
Proof. destruct x as [s|s| |s m e]; simpl; intros H; try contradiction; now subst. Qed.

Lemma binary_normalize_nonpos n e :
  n <= 0 -> SFleb (binary_normalize prec emax n e false) (S754_zero false) = true.
Proof.
  intros H. destruct n as [|n|n]; try lia; simpl; trivial.
  apply signed_true_le_zero, binary_round_signed.
Qed.

Lemma aligned_val m e ez :
  ez <= e -> - K <= ez ->
  val (Zpos (fst (shl_align m e ez))) ez = val (Zpos m) e.
Proof.
  intros H1 H2. destruct (shl_align_val m e ez) as [Hv Hm]; [lia | lia |].
  rewrite Hm in Hv. now replace (Z.min e ez) with ez in Hv by lia.
Qed.

(** The exact difference behind a subtraction of finite numbers. *)
Lemma SFsub_finite sx mx ex sy my ey :
  - K <= ex -> - K <= ey ->
  exists n,
    SF64sub (S754_finite sx mx ex) (S754_finite sy my ey) =
      binary_normalize prec emax n (Z.min ex ey) false
    /\ val n (Z.min ex ey) =
       cond_Zopp sx (val (Zpos mx) ex) - cond_Zopp sy (val (Zpos my) ey).
Proof.
  intros Hx Hy. eexists. split; [reflexivity|].
  pose proof (aligned_val mx ex (Z.min ex ey) ltac:(lia) ltac:(lia)) as H1.
  pose proof (aligned_val my ey (Z.min ex ey) ltac:(lia) ltac:(lia)) as H2.
  rewrite <- H1, <- H2. unfold val.
  destruct sx, sy; cbv beta iota delta [cond_Zopp]; ring.
Qed.

Lemma SFdiv_ge_one mx ex my ey :
  bounded prec emax mx ex = true -> bounded prec emax my ey = true ->
  val (Zpos my) ey <= val (Zpos mx) ex ->
  SFleb (S754_finite false 4503599627370496 (-52))
        (SF64div (S754_finite false mx ex) (S754_finite false my ey)) = true.
Proof.
  intros Hx Hy Hv.
  apply bounded_canonical in Hx, Hy. destruct Hx as [Hxc Hx], Hy as [_ Hy].
  unfold SF64div, SFdiv, SFdiv_core_binary, Zdigits2.
  pose proof (digits2_pos_ge mx) as Hxl. pose proof (digits2_pos_lt my) as Hyu.
  set (d1 := Zpos (digits2_pos mx)) in *. set (d2 := Zpos (digits2_pos my)) in *.
  assert (Hd1 : 0 < d1 <= 53) by (unfold fexp, prec in Hxc; unfold d1 in *; lia).
  assert (Hd2 : 0 < d2) by (unfold d2; lia).
  clear Hxc.
  pose proof (fexp_ge_emin (d1 + ex - (d2 + ey))) as Hf.
  set (e' := Z.min (fexp prec emax (d1 + ex - (d2 + ey))) (ex - ey)) in *.
  set (s := ex - ey - e').
  assert (Hs : 0 <= s) by (subst s e'; lia).
  set (m' := match s with Z0 => Zpos mx | Zpos _ => Z.shiftl (Zpos mx) s | Zneg _ => 0 end).
  assert (Hm' : m' = Zpos mx * 2 ^ s).
  { subst m'. destruct s as [|p|p] eqn:E; try lia.
    apply Z.shiftl_mul_pow2. lia. }
  assert (Hq : fst (Z.div_eucl m' (Zpos my)) = m' / Zpos my) by reflexivity.
  destruct (Z.div_eucl m' (Zpos my)) as [q r]. cbn [fst] in Hq. cbn [xorb].
  assert (Hps : 0 < 2 ^ s) by (apply Z.pow_pos_nonneg; lia).
  assert (He' : - K <= e') by (subst e'; unfold K; lia).
  assert (HA : 0 < 2 ^ (e' + K)) by (apply Z.pow_pos_nonneg; lia).
  assert (Hval : 2 ^ K <= q * 2 ^ (e' + K)).
  { destruct (Z_le_gt_dec e' 0) as [Hle|Hgt].
    - assert (H1 : 2 ^ (- e') <= q).
      { rewrite Hq, Hm'. apply Z.div_le_lower_bound; [lia|].
        unfold val in Hv.
        assert (HB : 0 < 2 ^ (ey + K + e')) by (apply Z.pow_pos_nonneg; unfold K; lia).
        apply (Z.mul_le_mono_pos_r _ _ (2 ^ (ey + K + e'))); trivial.
        replace (Zpos my * 2 ^ (- e') * 2 ^ (ey + K + e'))
          with (Zpos my * (2 ^ (- e') * 2 ^ (ey + K + e'))) by ring.
        rewrite <- (Z.pow_add_r 2 (- e') (ey + K + e')) by (unfold K; lia).
        replace (Zpos mx * 2 ^ s * 2 ^ (ey + K + e'))
          with (Zpos mx * (2 ^ s * 2 ^ (ey + K + e'))) by ring.
        rewrite <- (Z.pow_add_r 2 s (ey + K + e')) by (unfold K; lia).
        replace (- e' + (ey + K + e')) with (ey + K) by lia.
        replace (s + (ey + K + e')) with (ex + K) by (subst s; lia).
        exact Hv. }
      replace K with (- e' + (e' + K)) at 1 by lia.
      rewrite (Z.pow_add_r 2 (- e') (e' + K)) by lia.
      apply Z.mul_le_mono_nonneg_r; lia.
    - assert (H1 : 1 <= q).
      { rewrite Hq, Hm'. apply Z.div_le_lower_bound; [lia|].
        assert (Hs' : d2 - d1 + 53 <= s).
        { subst s e'. unfold fexp, emin, prec, emax in *. lia. }
        pose proof (Z.pow_le_mono_r 2 _ _ ltac:(lia) Hs') as Hp.
        assert (Hd : 2 ^ d2 <= 2 ^ (d1 - 1) * 2 ^ (d2 - d1 + 53)).
        { rewrite <- Z.pow_add_r by lia. apply Z.pow_le_mono_r; lia. }
        assert (H0 : 0 < 2 ^ (d1 - 1)) by (apply Z.pow_pos_nonneg; lia).
        nia. }
      assert (H2 : 2 ^ K <= 2 ^ (e' + K)) by (apply Z.pow_le_mono_r; unfold K; lia).
      nia. }
  assert (HK : 0 < 2 ^ K) by (apply Z.pow_pos_nonneg; unfold K; lia).
  apply binary_round_aux_ge; [nia | exact He' | reflexivity |].
  unfold val. replace (-52 + K) with (K - 52) by lia.
  change (Zpos 4503599627370496) with (2 ^ 52).
  rewrite <- (Z.pow_add_r 2 52 (K - 52)) by (unfold K; lia).
  replace (52 + (K - 52)) with K by lia. exact Hval.
Qed.

Lemma SFmul_ge mx ex my ey :
  bounded prec emax mx ex = true -> bounded prec emax my ey = true ->
  val (Zpos 4503599627370496) (-52) <= val (Zpos mx) ex ->
  SFleb (S754_finite false my ey)
        (SF64mul (S754_finite false mx ex) (S754_finite false my ey)) = true.
Proof.
  intros Hx Hy Hv. pose proof Hy as Hy'.
  apply bounded_canonical in Hx, Hy. destruct Hx as [_ Hx], Hy as [_ Hy].
  unfold SF64mul, SFmul. cbn [xorb].
  apply binary_round_aux_ge; [lia | unfold K; lia | exact Hy' |].
  unfold val in *. rewrite Pos2Z.inj_mul.
  replace (-52 + K) with (K - 52) in Hv by lia.
  change (Zpos 4503599627370496) with (2 ^ 52) in Hv.
  rewrite <- (Z.pow_add_r 2 52 (K - 52)) in Hv by (unfold K; lia).
  replace (52 + (K - 52)) with K in Hv by lia.
  assert (HK : 0 < 2 ^ K) by (apply Z.pow_pos_nonneg; unfold K; lia).
  assert (HY : 0 < 2 ^ (ey + K)) by (apply Z.pow_pos_nonneg; unfold K; lia).
  apply (Z.mul_le_mono_pos_r _ _ (2 ^ K)); trivial.
  replace (Zpos mx * Zpos my * 2 ^ (ex + ey + K) * 2 ^ K)
    with (Zpos my * (Zpos mx * (2 ^ (ex + ey + K) * 2 ^ K))) by ring.
  rewrite <- (Z.pow_add_r 2 (ex + ey + K) K) by (unfold K; lia).
  replace (ex + ey + K + K) with ((ex + K) + (ey + K)) by lia.
  rewrite (Z.pow_add_r 2 (ex + K) (ey + K)) by (unfold K; lia).
  nia.
Qed.

Lemma signed_true_nonpos x : signed true x -> nonpos x.
Proof. destruct x; simpl; trivial. Qed.

Lemma binary_normalize_is_nonpos n e :
  n <= 0 -> nonpos (binary_normalize prec emax n e false).
Proof.
  intros H. destruct n as [|n|n]; try lia; simpl; trivial.
  apply signed_true_nonpos, binary_round_signed.
Qed.

Open Scope float_scope.

Lemma Prim2SF_bounded x s m e :
  Prim2SF x = S754_finite s m e -> bounded prec emax m e = true.
Proof. intros E. pose proof (Prim2SF_valid x) as H. now rewrite E in H. Qed.

(** A number at or above a positive finite one is +Infinity or a finite
    number of at least that value. *)
Lemma ge_cases c x mc ec :
  Prim2SF c = S754_finite false mc ec -> (c <=? x) = true ->
  Prim2SF x = S754_infinity false
  \/ exists mx ex, Prim2SF x = S754_finite false mx ex
       /\ (val (Zpos mc) ec <= val (Zpos mx) ex)%Z.
Proof.
  intros Ec H. rewrite leb_spec, Ec in H.
  pose proof (Prim2SF_bounded c _ _ _ Ec) as Hc.
  destruct (Prim2SF x) as [s|s| |s mx ex] eqn:Ex;
    try destruct s; try discriminate; auto.
  right. exists mx, ex. split; [reflexivity|].
  apply SFleb_val; trivial. exact (Prim2SF_bounded x _ _ _ Ex).
Qed.

Lemma exponent_range x s m e :
  Prim2SF x = S754_finite s m e -> (- K <= e)%Z.
Proof.
  intros E. apply Prim2SF_bounded, bounded_canonical in E. unfold K. lia.
Qed.

Lemma sub_baseline_ge u b b2 mb eb :
  Prim2SF b = S754_finite false mb eb ->
  Prim2SF b2 = S754_finite false mb (eb + 1) ->
  (b2 <=? u) = true -> (b <=? u - b) = true.
Proof.
  intros Eb Eb2 H. rewrite leb_spec, sub_spec, Eb.
  pose proof (exponent_range _ _ _ _ Eb) as Hb.
  destruct (ge_cases b2 u _ _ Eb2 H) as [E|(mx & ex & E & Hv)]; rewrite E.
  - reflexivity.
  - pose proof (exponent_range _ _ _ _ E) as Hx.
    destruct (SFsub_finite false mx ex false mb eb Hx Hb) as (n & En & Hn).
    rewrite En. apply binary_normalize_ge; [lia | exact (Prim2SF_bounded b _ _ _ Eb) |].
    rewrite Hn. cbn [cond_Zopp].
    rewrite (val_shift (Zpos mb) eb 1) in Hv by lia.
    change (2 ^ 1)%Z with 2%Z in Hv. lia.
Qed.

Lemma Prim2SF_1 : Prim2SF 1 = S754_finite false 4503599627370496 (-52).
Proof. vm_compute. reflexivity. Qed.

Lemma div_baseline_ge d b mb eb :
  Prim2SF b = S754_finite false mb eb ->
  (b <=? d) = true -> (1 <=? d / b) = true.
Proof.
  intros Eb H. rewrite leb_spec, div_spec, Eb, Prim2SF_1.
  destruct (ge_cases b d _ _ Eb H) as [E|(mx & ex & E & Hv)]; rewrite E.
  - reflexivity.
  - apply SFdiv_ge_one; trivial;
      [exact (Prim2SF_bounded d _ _ _ E) | exact (Prim2SF_bounded b _ _ _ Eb)].
Qed.

Lemma mul_ge q c mc ec :
  Prim2SF c = S754_finite false mc ec ->
  (1 <=? q) = true -> (c <=? q * c) = true.
Proof.
  intros Ec H. rewrite leb_spec, mul_spec, Ec.
  destruct (ge_cases 1 q _ _ Prim2SF_1 H) as [E|(mx & ex & E & Hv)]; rewrite E.
  - reflexivity.
  - apply SFmul_ge; trivial;
      [exact (Prim2SF_bounded q _ _ _ E) | exact (Prim2SF_bounded c _ _ _ Ec)].
Qed.

Lemma sub_from_le_zero c t mc ec :
  Prim2SF c = S754_finite false mc ec ->
  (c <=? t) = true -> (c - t <=? 0) = true.
Proof.
  intros Ec H. rewrite leb_spec, sub_spec, Ec.
  change (Prim2SF 0) with (S754_zero false).
  pose proof (exponent_range _ _ _ _ Ec) as Hc.
  destruct (ge_cases c t _ _ Ec H) as [E|(mx & ex & E & Hv)]; rewrite E.
  - reflexivity.
  - pose proof (exponent_range _ _ _ _ E) as Hx.
    destruct (SFsub_finite false mc ec false mx ex Hc Hx) as (n & En & Hn).
    rewrite En. apply binary_normalize_nonpos.
    cbn [cond_Zopp] in Hn. unfold val in Hn at 1.
    assert (0 < 2 ^ (Z.min ec ex + K))%Z by (apply Z.pow_pos_nonneg; lia).
    nia.
Qed.

(** At least twice the baseline per unit: the formula's value is 0 or less. *)
Lemma score_far_above usage volume b b2 mb eb :
  Prim2SF b = S754_finite false mb eb ->
  Prim2SF b2 = S754_finite false mb (eb + 1) ->
  (b2 <=? usage / volume) = true ->
  (score usage volume b <=? 0) = true.
Proof.
  intros Eb Eb2 H. unfold score.
  eapply sub_from_le_zero; [vm_compute; reflexivity|].
  eapply mul_ge; [vm_compute; reflexivity|].
  eapply div_baseline_ge; [exact Eb|].
  eapply sub_baseline_ge; eassumption.
Qed.

Lemma sub_baseline_nonpos u b mb eb :
  Prim2SF b = S754_finite false mb eb ->
  (u <=? b) = true -> nonpos (Prim2SF (u - b)).
Proof.
  intros Eb H. rewrite leb_spec, Eb in H. rewrite sub_spec, Eb.
  pose proof (exponent_range _ _ _ _ Eb) as Hb.
  pose proof (Prim2SF_bounded b _ _ _ Eb) as Hbb.
  destruct (Prim2SF u) as [s|s| |s mx ex] eqn:Eu; try discriminate.
  - simpl. trivial.
  - destruct s; [simpl; trivial | discriminate].
  - pose proof (exponent_range _ _ _ _ Eu) as Hx.
    destruct (SFsub_finite s mx ex false mb eb Hx Hb) as (n & En & Hn).
    rewrite En. apply binary_normalize_is_nonpos.
    assert (HA : (0 < 2 ^ (Z.min ex eb + K))%Z) by (apply Z.pow_pos_nonneg; lia).
    assert (HX : (0 < 2 ^ (ex + K))%Z) by (apply Z.pow_pos_nonneg; lia).
    assert (HB : (0 < 2 ^ (eb + K))%Z) by (apply Z.pow_pos_nonneg; lia).
    unfold val in Hn at 1. cbn [cond_Zopp] in Hn.
    destruct s.
    + cbn [cond_Zopp] in Hn. unfold val in Hn. nia.
    + cbn [cond_Zopp] in Hn.
      pose proof (SFleb_val mx ex mb eb (Prim2SF_bounded u _ _ _ Eu) Hbb H). nia.
Qed.

Lemma div_nonpos d b mb eb :
  Prim2SF b = S754_finite false mb eb ->
  nonpos (Prim2SF d) -> nonpos (Prim2SF (d / b)).
Proof.
  intros Eb H. rewrite div_spec, Eb. unfold SF64div, SFdiv.
  destruct (Prim2SF d) as [s|s| |s mx ex]; simpl in H; try contradiction;
    try subst s; cbn [xorb]; simpl; trivial.
  pose proof (SFdiv_core_nonneg mx ex mb eb) as Hq.
  destruct (SFdiv_core_binary prec emax (Zpos mx) ex (Zpos mb) eb) as [[mz ez] lz].
  apply signed_true_nonpos, binary_round_aux_signed, Hq.
Qed.

Lemma mul_nonpos q c mc ec :
  Prim2SF c = S754_finite false mc ec ->
  nonpos (Prim2SF q) -> nonpos (Prim2SF (q * c)).
Proof.
  intros Ec H. rewrite mul_spec, Ec. unfold SF64mul, SFmul.
  destruct (Prim2SF q) as [s|s| |s mx ex]; simpl in H; try contradiction;
    try subst s; cbn [xorb]; simpl; trivial.
  apply signed_true_nonpos, binary_round_aux_signed. lia.
Qed.

Lemma SFleb_refl_finite m e :
  SFleb (S754_finite false m e) (S754_finite false m e) = true.
Proof.
  unfold SFleb. rewrite SFcompare_finite_pos, Z.compare_refl, Pos.compare_refl.
  reflexivity.
Qed.

Lemma sub_nonpos_ge c t mc ec :
  Prim2SF c = S754_finite false mc ec ->
  nonpos (Prim2SF t) -> (c <=? c - t) = true.
Proof.
  intros Ec H. rewrite leb_spec, sub_spec, Ec.
  pose proof (exponent_range _ _ _ _ Ec) as Hc.
  destruct (Prim2SF t) as [s|s| |s mx ex] eqn:Et; simpl in H; try contradiction.
  - apply SFleb_refl_finite.
  - subst s. reflexivity.
  - subst s. pose proof (exponent_range _ _ _ _ Et) as Hx.
    destruct (SFsub_finite false mc ec true mx ex Hc Hx) as (n & En & Hn).
    rewrite En. apply binary_normalize_ge;
      [lia | exact (Prim2SF_bounded c _ _ _ Ec) |].
    rewrite Hn. cbn [cond_Zopp].
    assert (0 < 2 ^ (ex + K))%Z by (apply Z.pow_pos_nonneg; lia).
    unfold val. nia.
Qed.

(** At most the baseline per unit: the formula's value is 100 or more. *)
Lemma score_below usage volume b mb eb :
  Prim2SF b = S754_finite false mb eb ->
  (usage / volume <=? b) = true ->
  (100 <=? score usage volume b) = true.
Proof.
  intros Eb H. unfold score.
  eapply sub_nonpos_ge; [vm_compute; reflexivity|].
  eapply mul_nonpos; [vm_compute; reflexivity|].
  eapply div_nonpos; [exact Eb|].
  eapply sub_baseline_nonpos; eassumption.
Qed.

End Rounding.

(** ** The metrics calculation *)

Section Calculation.

Import SpecFloat Binary64 FloatFacts Rounding.
Open Scope float_scope.

Lemma waterEfficiencyRaw_eq p : waterEfficiencyRaw p = clamp (waterScore p).
Proof. reflexivity. Qed.

Lemma energyEfficiencyRaw_eq p : energyEfficiencyRaw p = clamp (energyScore p).
Proof. reflexivity. Qed.

Lemma wellFormed_scores p :
  wellFormed p = true ->
  is_nan (waterScore p) = false /\ is_nan (energyScore p) = false.
Proof.
  unfold wellFormed. intros H.
  apply andb_prop in H; destruct H as [H Hpos].
  apply andb_prop in H; destruct H as [H Hfin].
  apply andb_prop in H; destruct H as [He Hw].
  apply negb_true_iff in He, Hw.
  pose proof (positive_finite _ Hfin Hpos) as Hv.
  split; apply score_notNaN; trivial; vm_compute; exact I.
Qed.

(** Every input the schema accepts is well formed. *)
Lemma schema_wellFormed b p :
  processParametersSchema b = Some p -> wellFormed p = true.
Proof.
  unfold processParametersSchema, wellFormed, nonNegative, is_finite.
  destruct (_ && _) eqn:E; [|discriminate]. intros H; injection H as <-.
  repeat (apply andb_prop in E; destruct E as [E ?]).
  repeat match goal with
         | H : (_ && _)%bool = true |- _ => apply andb_prop in H; destruct H
         | H : negb (_ || _) = true |- _ =>
             apply negb_true_iff, orb_false_elim in H; destruct H
         end.
  repeat (apply andb_true_intro; split); trivial;
    try (apply negb_true_iff; assumption).
  apply negb_true_iff, orb_false_intro; assumption.
Qed.

(** No usage at all: the quotient is +0 and the score is 200. *)
Lemma zero_usage_score volume baseline :
  isFinite (Prim2SF volume) -> (0 <? volume) = true ->
  score 0 volume baseline = score 0 1 baseline.
Proof.
  intros Hf Hp. unfold score.
  assert (E : 0 / volume = 0 / 1).
  { apply Prim2SF_inj. rewrite !div_spec.
    rewrite ltb_spec in Hp. change (Prim2SF 0) with (S754_zero false) in *.
    unfold SFltb in Hp.
    destruct (Prim2SF volume) as [s|s| |s m e]; try contradiction.
    destruct s; [discriminate | reflexivity]. }
  rewrite E. reflexivity.
Qed.

Lemma waterScore_eq p : waterScore p = score (waterUsage p) (productionVolume p) 2.5.
Proof. reflexivity. Qed.

Lemma energyScore_eq p :
  energyScore p = score (energyConsumption p) (productionVolume p) 0.5.
Proof. reflexivity. Qed.

(** Usage per unit at or below the baseline gives 100. *)
Lemma efficiency_below_baseline p :
  ((waterUsagePerUnit p <=? 2.5) = true -> clamp (waterScore p) = 100)
  /\ ((energyPerUnit p <=? 0.5) = true -> clamp (energyScore p) = 100).
Proof.
  split; intros H; apply clamp_high;
    [rewrite waterScore_eq | rewrite energyScore_eq];
    eapply score_below; try exact H; vm_compute; reflexivity.
Qed.

(** Usage per unit of twice the baseline or more gives 0. *)
Lemma efficiency_far_above_baseline p :
  ((5 <=? waterUsagePerUnit p) = true -> clamp (waterScore p) = 0)
  /\ ((1 <=? energyPerUnit p) = true -> clamp (energyScore p) = 0).
Proof.
  split; intros H; apply clamp_low;
    [rewrite waterScore_eq | rewrite energyScore_eq];
    eapply score_far_above; try exact H; vm_compute; reflexivity.
Qed.

(** C6.  For a well-formed input (in particular: every input the schema
    accepts, with productionVolume > 0) both efficiencies are integers
    between 0 and 100; each is the rounding of the formula's value clamped
    to [0,100]; a usage per unit at or below the baseline, and so any far
    below it, gives 100, and a usage per unit of at least twice the
    baseline, and so any far above it, gives 0. *)
Theorem efficiencies_clamped_then_rounded p :
  wellFormed p = true ->
  let r := calculateSustainabilityMetrics p in
  (integerIn 0 100 (waterEfficiency r) /\ integerIn 0 100 (energyEfficiency r))
  /\ (waterEfficiency r = Math_round (clamp (waterScore p))
      /\ energyEfficiency r = Math_round (clamp (energyScore p)))
  /\ (((waterUsagePerUnit p <=? 2.5) = true -> waterEfficiency r = 100)
      /\ ((energyPerUnit p <=? 0.5) = true -> energyEfficiency r = 100))
  /\ (((5 <=? waterUsagePerUnit p) = true -> waterEfficiency r = 0)
      /\ ((1 <=? energyPerUnit p) = true -> energyEfficiency r = 0)).
Proof.
  intros H. destruct (wellFormed_scores p H) as [Hw He].
  cbv zeta. unfold calculateSustainabilityMetrics; cbn [waterEfficiency energyEfficiency].
  rewrite waterEfficiencyRaw_eq, energyEfficiencyRaw_eq.
  destruct (efficiency_below_baseline p) as [Hbw Hbe].
  destruct (efficiency_far_above_baseline p) as [Haw Hae].
  repeat split.
  - apply Math_round_clamped, clamp_cases, Hw.
  - apply Math_round_clamped, clamp_cases, He.
  - intros E. rewrite (Hbw E). reflexivity.
  - intros E. rewrite (Hbe E). reflexivity.
  - intros E. rewrite (Haw E). reflexivity.
  - intros E. rewrite (Hae E). reflexivity.
Qed.

Lemma efficiencies_clamped_then_rounded_witness :
  wellFormed paramsFar = true
  /\ (waterUsagePerUnit paramsFar <=? 2.5) = true
  /\ (1 <=? energyPerUnit paramsFar) = true
  /\ waterEfficiency (calculateSustainabilityMetrics paramsFar) = 100
  /\ energyEfficiency (calculateSustainabilityMetrics paramsFar) = 0
  /\ integerIn 0 100 (energyEfficiency (calculateSustainabilityMetrics paramsFar)).
Proof.
  destruct (efficiencies_clamped_then_rounded paramsFar eq_refl)
    as ((_ & Hint) & _ & (Hbelow & _) & (_ & Habove)).
  split; [reflexivity|]. split; [reflexivity|]. split; [reflexivity|].
  split; [exact (Hbelow eq_refl)|]. split; [exact (Habove eq_refl) | exact Hint].
Defined.

(** The formula's value decides the clamp: 100 or more gives 100, 0 or less
    gives 0; with no usage at all the value is 200. *)
Lemma efficiency_saturates p :
  wellFormed p = true ->
  ((100 <=? waterScore p) = true -> clamp (waterScore p) = 100)
  /\ ((waterScore p <=? 0) = true -> clamp (waterScore p) = 0)
  /\ (waterUsage p = 0 -> clamp (waterScore p) = 100)
  /\ (energyConsumption p = 0 -> clamp (energyScore p) = 100).
Proof.
  intros H.
  assert (Hv : isFinite (Prim2SF (productionVolume p)) /\ (0 <? productionVolume p) = true).
  { unfold wellFormed in H.
    apply andb_prop in H; destruct H as [H Hpos].
    apply andb_prop in H; destruct H as [H Hfin].
    split; [now apply positive_finite | exact Hpos]. }
  destruct Hv as [Hf Hp].
  repeat split.
  - apply clamp_high.
  - apply clamp_low.
  - intros E. unfold waterScore. rewrite E, (zero_usage_score _ _ Hf Hp). reflexivity.
  - intros E. unfold energyScore. rewrite E, (zero_usage_score _ _ Hf Hp). reflexivity.
Qed.

(** C1, as the code has it.  The score is the rounding of the average of
    the two clamped efficiencies before they are rounded; the efficiencies
    returned are the roundings of the same two values. *)
Theorem sustainabilityScore_from_unrounded p :
  let r := calculateSustainabilityMetrics p in
  sustainabilityScore r =
    Math_round ((waterEfficiencyRaw p + energyEfficiencyRaw p) / 2)
  /\ waterEfficiency r = Math_round (waterEfficiencyRaw p)
  /\ energyEfficiency r = Math_round (energyEfficiencyRaw p).
Proof. cbv zeta. repeat split. Qed.

Lemma float_neq (x y : float) : Prim2SF x <> Prim2SF y -> x <> y.
Proof. intros H E. apply H. now rewrite E. Qed.

(** C1 fails as stated: for [paramsTie] the efficiencies returned are 100
    and 1, whose average rounds to 51, and the score returned is 50. *)
Lemma sustainabilityScore_not_from_rounded :
  ~ (forall p, (0 <? productionVolume p) = true ->
       let r := calculateSustainabilityMetrics p in
       sustainabilityScore r =
         Math_round ((waterEfficiency r + energyEfficiency r) / 2)).
Proof.
  intros H. specialize (H paramsTie eq_refl). cbv zeta in H.
  revert H. apply float_neq. vm_compute. discriminate.
Qed.

(** C2, as the code has it.  Scenario A sits on both baselines: both
    efficiencies are 100 and the footprint is 2.5 + 1.2. *)
Theorem scenarioA_metrics :
  calculateSustainabilityMetrics scenarioA =
  {| carbonFootprint := 3.7; waterEfficiency := 100; energyEfficiency := 100;
     sustainabilityScore := 100 |}.
Proof. vm_compute. reflexivity. Qed.

(** C2 fails as stated: none of the three values is returned. *)
Lemma scenarioA_not_seed_metrics :
  let r := calculateSustainabilityMetrics scenarioA in
  carbonFootprint r <> 2.8 /\ waterEfficiency r <> 72 /\ energyEfficiency r <> 85.
Proof. cbv zeta. repeat split; apply float_neq; vm_compute; discriminate. Qed.

(** C3, as the code has it.  Scenario B is below both baselines: both
    efficiencies are clamped to 100 and the footprint 1.75 + 0.8 rounds
    to 2.6. *)
Theorem scenarioB_metrics :
  calculateSustainabilityMetrics scenarioB =
  {| carbonFootprint := 2.6; waterEfficiency := 100; energyEfficiency := 100;
     sustainabilityScore := 100 |}.
Proof. vm_compute. reflexivity. Qed.

(** C3 fails as stated: none of the three values is returned. *)
Lemma scenarioB_not_seed_metrics :
  let r := calculateSustainabilityMetrics scenarioB in
  carbonFootprint r <> 2.0 /\ waterEfficiency r <> 85 /\ energyEfficiency r <> 92.
Proof. cbv zeta. repeat split; apply float_neq; vm_compute; discriminate. Qed.

End Calculation.

(** ** The Map and the sort *)

Module MapFacts.
Section WithValue.
Context {V : Type}.
Implicit Types (m : JSMap.t V) (k : Z) (v : V).

Lemma get_None k m : JSMap.get k m = None <-> ~ In k (JSMap.keys m).
Proof.
  induction m as [|[k' v'] m IH]; simpl; [tauto|].
  destruct (Z.eqb_spec k k') as [E|E].
  - split; [discriminate | intros H; elim H; auto].
  - rewrite IH. split; [intros H [H'|H']; auto | tauto].
Qed.

Lemma get_In k v m : JSMap.get k m = Some v -> In (k, v) m.
Proof.
  induction m as [|[k' v'] m IH]; simpl; [discriminate|].
  destruct (Z.eqb_spec k k') as [E|E]; auto.
  intros H; injection H as <-. subst; auto.
Qed.

Lemma In_get k v m : NoDup (JSMap.keys m) -> In (k, v) m -> JSMap.get k m = Some v.
Proof.
  induction m as [|[k' v'] m IH]; simpl; [contradiction|].
  intros Hnd [H|H]; inversion Hnd as [|? ? Hn Hnd']; subst.
  - injection H as -> ->. now rewrite Z.eqb_refl.
  - destruct (Z.eqb_spec k k') as [E|E]; auto.
    subst. elim Hn. change k' with (fst (k', v)). now apply in_map.
Qed.

Lemma set_fresh k v m : JSMap.get k m = None -> JSMap.set k v m = m ++ [(k, v)].
Proof.
  induction m as [|[k' v'] m IH]; simpl; trivial.
  destruct (Z.eqb_spec k k'); [discriminate|]. intros H. now rewrite IH.
Qed.

Lemma get_set_same k v m : JSMap.get k (JSMap.set k v m) = Some v.
Proof.
  induction m as [|[k' v'] m IH]; simpl.
  - now rewrite Z.eqb_refl.
  - destruct (Z.eqb_spec k k') as [E|E]; simpl.
    + now rewrite Z.eqb_refl.
    + destruct (Z.eqb_spec k k'); [contradiction | exact IH].
Qed.

Lemma get_set_other k k' v m :
  k' <> k -> JSMap.get k' (JSMap.set k v m) = JSMap.get k' m.
Proof.
  intros Hne. induction m as [|[k0 v0] m IH]; simpl.
  - destruct (Z.eqb_spec k' k); [contradiction | reflexivity].
  - destruct (Z.eqb_spec k k0) as [E|E]; simpl.
    + subst k0. destruct (Z.eqb_spec k' k); [contradiction | reflexivity].
    + destruct (k' =? k0); [reflexivity | exact IH].
Qed.

Lemma Forall_set (P : Z * V -> Prop) k v m :
  Forall P m -> P (k, v) -> Forall P (JSMap.set k v m).
Proof.
  intros Hm Hp. induction Hm as [|[k' v'] m Hx Hm IH]; simpl.
  - auto.
  - destruct (k =? k'); constructor; auto.
Qed.

Lemma get_delete_same k m : JSMap.get k (snd (JSMap.delete k m)) = None.
Proof.
  simpl. induction m as [|[k' v'] m IH]; simpl; trivial.
  destruct (Z.eqb_spec k k') as [E|E]; simpl; trivial.
  destruct (Z.eqb_spec k k'); [contradiction | exact IH].
Qed.

Lemma get_delete_other k k' m :
  k' <> k -> JSMap.get k' (snd (JSMap.delete k m)) = JSMap.get k' m.
Proof.
  intros Hne. simpl. induction m as [|[k0 v0] m IH]; simpl; trivial.
  destruct (Z.eqb_spec k k0) as [E|E]; simpl.
  - subst k0. destruct (Z.eqb_spec k' k); [contradiction | exact IH].
  - destruct (k' =? k0); [reflexivity | exact IH].
Qed.

Lemma delete_absent k m :
  JSMap.has k m = false -> JSMap.delete k m = (false, m).
Proof.
  unfold JSMap.delete, JSMap.has. intros H. f_equal.
  - destruct (JSMap.get k m); [discriminate | reflexivity].
  - assert (Hn : JSMap.get k m = None) by (destruct (JSMap.get k m); [discriminate | reflexivity]).
    clear H. induction m as [|[k' v'] m IH]; simpl in *; trivial.
    destruct (Z.eqb_spec k k'); [discriminate|]. simpl. now rewrite IH.
Qed.

Lemma In_delete k m kv :
  In kv (snd (JSMap.delete k m)) <-> In kv m /\ fst kv <> k.
Proof.
  simpl. rewrite filter_In. rewrite negb_true_iff, Z.eqb_neq.
  split; intros [H1 H2]; split; auto.
Qed.

End WithValue.
End MapFacts.

Module SortFacts.
Section WithComparator.
Context {A : Type} (compareFn : A -> A -> Z).

Lemma sort_insert_perm a l : Permutation (a :: l) (sort_insert compareFn a l).
Proof.
  induction l as [|b l IH]; simpl; [reflexivity|].
  destruct (compareFn a b <=? 0); [reflexivity|].
  rewrite perm_swap. now constructor.
Qed.

Lemma Array_sort_perm l : Permutation l (Array_sort compareFn l).
Proof.
  induction l as [|a l IH]; simpl; [constructor|].
  rewrite <- sort_insert_perm. now constructor.
Qed.

Lemma Array_sort_In a l : In a (Array_sort compareFn l) <-> In a l.
Proof.
  split; apply Permutation_in; [symmetry|]; apply Array_sort_perm.
Qed.

(** A consistent comparator (ECMA-262 23.1.3.30.2) is total and transitive. *)
Hypothesis total : forall a b, compareFn a b <= 0 \/ compareFn b a <= 0.
Hypothesis trans : forall a b c,
  compareFn a b <= 0 -> compareFn b c <= 0 -> compareFn a c <= 0.

Let before (a b : A) : Prop := compareFn a b <= 0.

Lemma sort_insert_sorted a l :
  StronglySorted before l -> StronglySorted before (sort_insert compareFn a l).
Proof.
  induction 1 as [|b l Hs IH Hb]; simpl.
  - repeat constructor.
  - destruct (Z.leb_spec (compareFn a b) 0) as [E|E].
    + constructor; [now constructor|].
      constructor; [exact E|].
      eapply Forall_impl; [|exact Hb]. intros c Hc. exact (trans _ _ _ E Hc).
    + constructor; [exact IH|].
      eapply Permutation_Forall; [apply sort_insert_perm|].
      constructor; [|exact Hb].
      destruct (total a b); [lia | assumption].
Qed.

Lemma Array_sort_sorted l : StronglySorted before (Array_sort compareFn l).
Proof.
  induction l as [|a l IH]; simpl; [constructor|].
  now apply sort_insert_sorted.
Qed.

End WithComparator.
End SortFacts.

(** ** The store *)

Module StoreFacts.

Import MapFacts SortFacts.

Lemma exec_create_snd ins now s :
  snd (exec (CallCreate ins now) s) =
  {| scenarios :=
       JSMap.set (currentId s)
         {| id := currentId s; scenarioName := name (fst ins);
            scenarioParams := params (fst ins); scenarioMetrics := snd ins;
            createdAt := now |} (scenarios s);
     currentId := currentId s + 1 |}.
Proof. reflexivity. Qed.

Lemma exec_delete_snd i s :
  snd (exec (CallDelete i) s) =
  {| scenarios := snd (JSMap.delete i (scenarios s)); currentId := currentId s |}.
Proof. reflexivity. Qed.

Lemma keys_filter_NoDup {V} (f : Z * V -> bool) (m : JSMap.t V) :
  NoDup (JSMap.keys m) -> NoDup (JSMap.keys (filter f m)).
Proof.
  unfold JSMap.keys. induction m as [|kv m IH]; simpl; trivial.
  intros H; inversion H as [|? ? Hn Hnd]; subst.
  destruct (f kv); simpl; auto.
  constructor; auto. intros Hin. apply Hn.
  apply in_map_iff in Hin. destruct Hin as (x & E & Hx).
  apply filter_In in Hx. apply in_map_iff. exists x. tauto.
Qed.

Lemma storeInv_fresh s : storeInv s -> JSMap.get (currentId s) (scenarios s) = None.
Proof.
  intros (_ & Hf & _). apply get_None. intros Hin.
  apply in_map_iff in Hin. destruct Hin as (kv & E & Hin).
  rewrite Forall_forall in Hf. specialize (Hf kv Hin). lia.
Qed.

Lemma storeInv_new t1 t2 t3 : storeInv (newMemStorage t1 t2 t3).
Proof.
  unfold storeInv. cbv [newMemStorage initializeDefaultScenarios forEach
    defaultScenarios addDefault bind nextId putScenario ret snd fst
    scenarios currentId JSMap.empty JSMap.keys map].
  simpl. repeat split.
  - repeat constructor; simpl; intuition lia.
  - repeat constructor; simpl; lia.
  - lia.
Qed.

Lemma storeInv_exec c s : storeInv s -> storeInv (snd (exec c s)).
Proof.
  intros Hs. pose proof (storeInv_fresh s Hs) as Hfresh.
  destruct Hs as (Hnd & Hf & Hc).
  destruct c as [i| |ins now|i]; try (repeat split; assumption).
  - rewrite exec_create_snd. unfold storeInv; cbn [scenarios currentId].
    rewrite (set_fresh _ _ _ Hfresh). repeat split.
    + unfold JSMap.keys. rewrite map_app. simpl.
      apply get_None in Hfresh.
      eapply Permutation_NoDup;
        [apply Permutation_cons_append | constructor; assumption].
    + apply Forall_app. split.
      * eapply Forall_impl; [|exact Hf]. simpl. intros kv H. lia.
      * repeat constructor; simpl; lia.
    + lia.
  - rewrite exec_delete_snd. unfold storeInv; cbn [scenarios currentId].
    repeat split; trivial.
    + now apply keys_filter_NoDup.
    + simpl. apply Forall_forall. intros kv Hin. apply filter_In in Hin.
      rewrite Forall_forall in Hf. apply Hf. tauto.
Qed.

Lemma reachableStore_inv s : reachableStore s -> storeInv s.
Proof.
  induction 1 as [t1 t2 t3 | s c _ IH];
    [apply storeInv_new | now apply storeInv_exec].
Qed.

(** What a request does to the store: nothing, a create with calculated
    metrics, or a delete. *)
Lemma handle_store r s :
  snd (handle r s) = s
  \/ (exists b now, snd (handle r s) =
        snd (exec (CallCreate (b, calculateSustainabilityMetrics (params b)) now) s))
  \/ (exists i, snd (handle r s) = snd (exec (CallDelete i) s)).
Proof.
  destruct r as [|idParam|b|b now|idParam]; simpl.
  - left; reflexivity.
  - left. unfold handleGetScenario.
    destruct (parseInt idParam); [|reflexivity].
    unfold bind, getScenario. destruct (JSMap.get z (scenarios s)); reflexivity.
  - left. unfold handleCalculateMetrics.
    destruct (processParametersSchema b); reflexivity.
  - unfold handleCreateScenario.
    destruct (insertScenarioSchema b) as [d|]; [|left; reflexivity].
    right; left. exists d, now. reflexivity.
  - unfold handleDeleteScenario.
    destruct (parseInt idParam) as [i|]; [|left; reflexivity].
    right; right. exists i. unfold bind. simpl.
    destruct (JSMap.has i (scenarios s)); reflexivity.
Qed.

Lemma reachable_reachableStore s : reachable s -> reachableStore s.
Proof.
  induction 1 as [t1 t2 t3 | s r _ IH]; [constructor|].
  destruct (handle_store r s) as [E|[(b & now & E)|(i & E)]]; rewrite E;
    [assumption | constructor; assumption | constructor; assumption].
Qed.

Lemma metricsInv_new t1 t2 t3 : metricsInv (newMemStorage t1 t2 t3).
Proof.
  unfold metricsInv. cbv [newMemStorage initializeDefaultScenarios forEach
    defaultScenarios addDefault bind nextId putScenario ret snd fst
    scenarios currentId JSMap.empty].
  simpl. repeat (constructor; [unfold isSeed; simpl; auto 6|]). constructor.
Qed.

Lemma metricsInv_handle r s : storeInv s -> metricsInv s -> metricsInv (snd (handle r s)).
Proof.
  intros Hs Hm.
  destruct (handle_store r s) as [E|[(b & now & E)|(i & E)]]; rewrite E; trivial.
  - rewrite exec_create_snd. unfold metricsInv; cbn [scenarios].
    apply Forall_set; trivial. simpl.
    destruct Hs as (_ & _ & Hc).
    destruct (Z.leb_spec (currentId s) 3); [lia | reflexivity].
  - rewrite exec_delete_snd. unfold metricsInv; cbn [scenarios]. simpl.
    apply Forall_forall. intros kv Hin. apply filter_In in Hin.
    unfold metricsInv in Hm. rewrite Forall_forall in Hm. apply Hm. tauto.
Qed.

Lemma reachable_metricsInv s : reachable s -> metricsInv s.
Proof.
  induction 1 as [t1 t2 t3 | s r Hr IH]; [apply metricsInv_new|].
  apply metricsInv_handle; trivial.
  now apply reachableStore_inv, reachable_reachableStore.
Qed.

Lemma execAll_cons c cs s :
  execAll (c :: cs) s =
  (fst (exec c s) :: fst (execAll cs (snd (exec c s))),
   snd (execAll cs (snd (exec c s)))).
Proof.
  simpl. unfold bind, ret. destruct (exec c s) as [a s1].
  simpl. destruct (execAll cs s1); reflexivity.
Qed.

Lemma createdIds_bounds cs : forall s,
  let ids := createdIds (fst (execAll cs s)) in
  Forall (fun i => currentId s <= i) ids /\ StronglySorted Z.lt ids.
Proof.
  induction cs as [|c cs IH]; intros s; cbv zeta.
  - simpl. split; constructor.
  - rewrite execAll_cons. cbn [fst].
    destruct (IH (snd (exec c s))) as [Hge Hs].
    destruct c as [i| |ins now|i]; cbn [exec]; try (split; [exact Hge | exact Hs]).
    + unfold bind at 1 3, ret. simpl fst at 1 3.
      change (createdIds (RCreate ?sc :: ?l)) with (id sc :: createdIds l).
      simpl id. rewrite exec_create_snd in Hge. cbn [currentId] in Hge.
      split.
      * constructor; [lia|]. eapply Forall_impl; [|exact Hge]. simpl; intros; lia.
      * constructor; [exact Hs|]. eapply Forall_impl; [|exact Hge]. simpl; intros; lia.
Qed.

Lemma createdIds_length cs : forall s,
  List.length (createdIds (fst (execAll cs s))) = List.length (filter isCreate cs).
Proof.
  induction cs as [|c cs IH]; intros s; [reflexivity|].
  rewrite execAll_cons. cbn [fst].
  destruct c as [i| |ins now|i]; simpl; rewrite ?IH; reflexivity.
Qed.

Lemma StronglySorted_impl {A} (R R' : A -> A -> Prop) l :
  (forall a b, R a b -> R' a b) -> StronglySorted R l -> StronglySorted R' l.
Proof.
  intros H. induction 1 as [|a l Hs IH Ha]; constructor; trivial.
  eapply Forall_impl; [|exact Ha]. auto.
Qed.

End StoreFacts.

(** ** The claims on the store and on the handlers *)

Section Claims.

Import MapFacts SortFacts StoreFacts.

(** C4, as the code has it.  In every store the server can reach, a record
    with an id above 3 (one added by the create handler) carries the metrics
    calculated from its own parameters, and a record with an id up to 3
    carries a seed's literal name, parameters and metrics. *)
Theorem created_metrics_consistent s :
  reachable s ->
  forall sc, In sc (JSMap.values (scenarios s)) ->
    (3 < id sc -> consistent sc) /\ (id sc <= 3 -> isSeed sc).
Proof.
  intros Hr sc Hin.
  pose proof (reachable_metricsInv s Hr) as Hm.
  destruct (reachableStore_inv s (reachable_reachableStore s Hr)) as (_ & Hf & _).
  apply in_map_iff in Hin. destruct Hin as ([k sc'] & E & Hin). simpl in E; subst sc'.
  unfold metricsInv in Hm. rewrite Forall_forall in Hm, Hf.
  specialize (Hm _ Hin). specialize (Hf _ Hin). simpl in Hm, Hf.
  destruct Hf as [Hid _]. rewrite Hid.
  destruct (Z.leb_spec k 3); split; intros; trivial; lia.
Qed.

Lemma created_metrics_consistent_witness :
  let s := snd (handle (PostScenarios {| name := "A"; params := scenarioA |} 7)
                  (newMemStorage 0 0 0)) in
  reachable s /\
  exists sc, JSMap.get 4 (scenarios s) = Some sc /\ consistent sc.
Proof.
  cbv zeta.
  assert (Hr : reachable
    (snd (handle (PostScenarios {| name := "A"; params := scenarioA |} 7)
            (newMemStorage 0 0 0)))) by (apply reachable_handle, reachable_new).
  split; [exact Hr|].
  eexists. split; [reflexivity|].
  apply (created_metrics_consistent _ Hr).
  - right; right; right; left; reflexivity.
  - reflexivity.
Defined.

(** C4 fails as stated: the first seed of a new store records a footprint
    of 2.8, and the calculation on its parameters gives 3.7. *)
Lemma seed_metrics_not_consistent :
  ~ (forall s, reachable s ->
       forall sc, In sc (JSMap.values (scenarios s)) -> consistent sc).
Proof.
  intros H.
  assert (Hin : exists sc, In sc (JSMap.values (scenarios (newMemStorage 0 0 0)))
                           /\ carbonFootprint (scenarioMetrics sc) = 2.8%float
                           /\ scenarioParams sc = scenarioA).
  { eexists. split; [left; reflexivity | split; reflexivity]. }
  destruct Hin as (sc & Hin & Hc & Hp).
  specialize (H _ (reachable_new 0 0 0) sc Hin).
  unfold consistent in H. rewrite H, Hp in Hc.
  revert Hc. apply float_neq. vm_compute. discriminate.
Qed.

(** C5.  The seeds of a new store have the ids 1, 2, 3; whatever calls
    follow, each create is given one id, and the ids given, seeds included,
    are strictly increasing in the order they were given: none is given
    twice, whether or not its record was deleted in between. *)
Theorem ids_strictly_increasing t1 t2 t3 cs :
  let s0 := newMemStorage t1 t2 t3 in
  let ids := createdIds (fst (execAll cs s0)) in
  JSMap.keys (scenarios s0) = [1; 2; 3]
  /\ List.length ids = List.length (filter isCreate cs)
  /\ StronglySorted Z.lt ([1; 2; 3] ++ ids).
Proof.
  cbv zeta. split; [reflexivity|]. split; [apply createdIds_length|].
  destruct (createdIds_bounds cs (newMemStorage t1 t2 t3)) as [Hge Hs].
  change (currentId (newMemStorage t1 t2 t3)) with 4 in Hge.
  simpl app.
  repeat (constructor;
          [| try (constructor; [lia|]); try (constructor; [lia|]);
             eapply Forall_impl; [|exact Hge]; simpl; intros; lia]).
  exact Hs.
Qed.

(** C7.  [getAllScenarios] returns the stored records, each once, the most
    recently created first, and leaves the store as it was. *)
Theorem getAllScenarios_sorted s :
  let l := fst (getAllScenarios s) in
  Permutation l (JSMap.values (scenarios s))
  /\ StronglySorted (fun a b => createdAt b <= createdAt a) l
  /\ snd (getAllScenarios s) = s.
Proof.
  cbv zeta. unfold getAllScenarios; cbn [fst snd]. repeat split.
  - symmetry. apply Array_sort_perm.
  - eapply StronglySorted_impl; [|apply Array_sort_sorted].
    + cbv beta. intros a b H. lia.
    + intros a b. lia.
    + intros a b c. lia.
Qed.

(** In a reachable store the listing holds the records that [getScenario]
    finds, and no other. *)
Lemma getAllScenarios_lists_store s :
  reachableStore s ->
  forall sc, In sc (fst (getAllScenarios s)) <->
             fst (getScenario (id sc) s) = Some sc.
Proof.
  intros Hr sc. destruct (reachableStore_inv s Hr) as (Hnd & Hf & _).
  rewrite Forall_forall in Hf.
  unfold getAllScenarios, getScenario; cbn [fst]. rewrite Array_sort_In.
  unfold JSMap.values. rewrite in_map_iff. split.
  - intros ([k sc'] & E & Hin). simpl in E; subst sc'.
    destruct (Hf _ Hin) as [Hid _]. simpl in Hid. rewrite Hid.
    now apply In_get.
  - intros H. exists (id sc, sc). split; [reflexivity | now apply get_In].
Qed.

(** C8.  Deleting the id of a stored record returns true, after which the
    id is not found, the record is gone from the listing and every other
    record is where it was; deleting an id that is not stored returns false
    and leaves the store as it was; a second delete returns false. *)
Theorem deleteScenario_spec s i :
  reachableStore s ->
  let b := fst (deleteScenario i s) in
  let s' := snd (deleteScenario i s) in
  (forall r, fst (getScenario i s) = Some r ->
     b = true
     /\ fst (getScenario i s') = None
     /\ ~ In r (fst (getAllScenarios s'))
     /\ (forall j, j <> i -> fst (getScenario j s') = fst (getScenario j s))
     /\ (forall x, In x (fst (getAllScenarios s')) <->
                   In x (fst (getAllScenarios s)) /\ x <> r)
     /\ currentId s' = currentId s)
  /\ (fst (getScenario i s) = None -> b = false /\ s' = s)
  /\ fst (deleteScenario i s') = false.
Proof.
  intros Hr. destruct (reachableStore_inv s Hr) as (Hnd & Hf & _).
  rewrite Forall_forall in Hf.
  cbv zeta. unfold deleteScenario, getScenario, getAllScenarios.
  cbn [fst snd JSMap.delete scenarios currentId].
  change (filter (fun kv => negb (i =? fst kv)) (scenarios s))
    with (snd (JSMap.delete i (scenarios s))).
  assert (Hval : forall x, In x (JSMap.values (snd (JSMap.delete i (scenarios s))))
                   <-> exists k, In (k, x) (scenarios s) /\ k <> i).
  { intros x. unfold JSMap.values. rewrite in_map_iff. split.
    - intros ([k x'] & E & Hin). simpl in E; subst x'.
      apply In_delete in Hin. exists k. exact Hin.
    - intros (k & Hin & Hne). exists (k, x). split; [reflexivity|].
      apply In_delete. auto. }
  repeat split.
  - unfold JSMap.has. now rewrite H.
  - apply get_delete_same.
  - rewrite Array_sort_In, Hval. intros (k & Hin & Hne).
    apply get_In in H. pose proof (Hf _ Hin) as [H1 _]. pose proof (Hf _ H) as [H2 _].
    simpl in *. congruence.
  - intros j Hj. now apply get_delete_other.
  - rewrite Array_sort_In in H0. apply Hval in H0. destruct H0 as (k & Hin & _).
    apply Array_sort_In. unfold JSMap.values. apply in_map_iff.
    exists (k, x). auto.
  - rewrite Array_sort_In in H0. apply Hval in H0. destruct H0 as (k & Hin & Hne).
    apply get_In in H. pose proof (Hf _ Hin) as [H1 _]. pose proof (Hf _ H) as [H2 _].
    simpl in *. congruence.
  - intros [Hin Hne]. rewrite Array_sort_In in *. apply Hval.
    unfold JSMap.values in Hin. apply in_map_iff in Hin.
    destruct Hin as ([k x'] & E & Hin). simpl in E; subst x'.
    exists k. split; trivial. intros ->.
    apply (In_get _ _ _ Hnd) in Hin. congruence.
  - unfold JSMap.has. now rewrite H.
  - assert (Hh : JSMap.has i (scenarios s) = false) by (unfold JSMap.has; now rewrite H).
    pose proof (delete_absent _ _ Hh) as E.
    apply (f_equal snd) in E. simpl in E. simpl. rewrite E. now destruct s.
  - unfold JSMap.has. now rewrite get_delete_same.
Qed.

Lemma deleteScenario_spec_witness :
  reachableStore (newMemStorage 0 0 0) /\
  fst (deleteScenario 2 (snd (deleteScenario 2 (newMemStorage 0 0 0)))) = false.
Proof.
  split; [apply reachableStore_new|].
  apply (deleteScenario_spec (newMemStorage 0 0 0) 2 (reachableStore_new 0 0 0)).
Defined.

(** C10.  A create stores its record under the counter's value, an id
    that was not in use; the Map gains that entry at its end and nothing
    else: every id found before is found after with the same record. *)
Theorem createScenario_frame s ins now :
  reachableStore s ->
  let sc := fst (createScenario ins now s) in
  let s' := snd (createScenario ins now s) in
  id sc = currentId s
  /\ fst (getScenario (id sc) s) = None
  /\ fst (getScenario (id sc) s') = Some sc
  /\ (forall j r, fst (getScenario j s) = Some r -> fst (getScenario j s') = Some r)
  /\ (forall j, j <> id sc -> fst (getScenario j s') = fst (getScenario j s))
  /\ scenarios s' = scenarios s ++ [(id sc, sc)].
Proof.
  intros Hr. pose proof (storeInv_fresh s (reachableStore_inv s Hr)) as Hfresh.
  cbv zeta. unfold createScenario, getScenario, bind, nextId, putScenario, ret.
  cbn [fst snd id scenarios currentId]. repeat split; trivial.
  - apply get_set_same.
  - intros j r Hj. rewrite get_set_other; trivial. congruence.
  - intros j Hj. now apply get_set_other.
  - now apply set_fresh.
Qed.

Lemma createScenario_frame_witness :
  reachableStore (newMemStorage 0 0 0) /\
  id (fst (createScenario ({| name := "A"; params := scenarioA |},
                           calculateSustainabilityMetrics scenarioA) 7
             (newMemStorage 0 0 0))) = 4.
Proof.
  split; [apply reachableStore_new|].
  apply (createScenario_frame (newMemStorage 0 0 0) _ 7 (reachableStore_new 0 0 0)).
Defined.

(** C9, as the code has it.  The two handlers answer 400 exactly when
    [parseInt] gives NaN, whatever the store, which they leave as it was;
    otherwise the integer parsed is looked up: 404 and an unchanged store
    when no record has that id; when one has, the get handler answers 200
    with the record and the delete handler answers 200 and removes it. *)
Theorem id_handlers_status idParam s :
  (parseInt idParam = None ->
     handleGetScenario idParam s = (res_status 400 "Invalid scenario ID", s)
     /\ handleDeleteScenario idParam s = (res_status 400 "Invalid scenario ID", s))
  /\ (forall i, parseInt idParam = Some i ->
        JSMap.get i (scenarios s) = None ->
        handleGetScenario idParam s = (res_status 404 "Scenario not found", s)
        /\ handleDeleteScenario idParam s = (res_status 404 "Scenario not found", s))
  /\ (forall i sc, parseInt idParam = Some i ->
        JSMap.get i (scenarios s) = Some sc ->
        handleGetScenario idParam s = (res_json (JsonScenario sc), s)
        /\ fst (handleDeleteScenario idParam s) =
             res_json (JsonMessage "Scenario deleted successfully")
        /\ JSMap.get i (scenarios (snd (handleDeleteScenario idParam s))) = None).
Proof.
  unfold handleGetScenario, handleDeleteScenario. repeat split.
  - now rewrite H.
  - now rewrite H.
  - rewrite H. unfold bind, getScenario. now rewrite H0.
  - rewrite H. unfold bind, deleteScenario.
    assert (Hh : JSMap.has i (scenarios s) = false) by (unfold JSMap.has; now rewrite H0).
    rewrite (delete_absent _ _ Hh). unfold ret. now destruct s.
  - rewrite H. unfold bind, getScenario. now rewrite H0.
  - rewrite H. unfold bind, deleteScenario, JSMap.delete, JSMap.has. now rewrite H0.
  - rewrite H. unfold bind, deleteScenario, JSMap.delete, JSMap.has. rewrite H0.
    simpl. apply (get_delete_same i (scenarios s)).
Qed.

Lemma id_handlers_status_witness :
  parseInt "abc" = None
  /\ handleGetScenario "abc" (newMemStorage 0 0 0) =
       (res_status 400 "Invalid scenario ID", newMemStorage 0 0 0)
  /\ parseInt "0" = Some 0
  /\ handleDeleteScenario "0" (newMemStorage 0 0 0) =
       (res_status 404 "Scenario not found", newMemStorage 0 0 0).
Proof.
  destruct (id_handlers_status "abc" (newMemStorage 0 0 0)) as (H400 & _ & _).
  destruct (id_handlers_status "0" (newMemStorage 0 0 0)) as (_ & H404 & _).
  split; [reflexivity|]. split; [exact (proj1 (H400 eq_refl))|].
  split; [reflexivity|]. exact (proj2 (H404 0 eq_refl eq_refl)).
Defined.

(** The text "1abc" is read as the id 1. *)
Example get_numeric_prefix :
  parseInt "1abc" = Some 1
  /\ status (fst (handleGetScenario "1abc" (newMemStorage 0 0 0))) = 200
  /\ JSMap.keys (scenarios (snd (handleDeleteScenario "1abc" (newMemStorage 0 0 0))))
     = [2; 3].
Proof. repeat split. Qed.

(** C9 fails as stated: "0" and "1abc" are not texts of positive integers;
    on a new store the first is answered 404 by both handlers, and the
    second is read as 1: the get handler answers 200 and the delete
    handler deletes the first seed. *)
Lemma id_handlers_not_400 :
  ~ (forall idParam s, positiveIntegerText idParam = false ->
       status (fst (handleGetScenario idParam s)) = 400
       /\ status (fst (handleDeleteScenario idParam s)) = 400
       /\ snd (handleDeleteScenario idParam s) = s).
Proof.
  intros H. specialize (H "0"%string (newMemStorage 0 0 0) eq_refl).
  destruct H as [H _]. vm_compute in H. discriminate.
Qed.

End Claims.

(** ** Binary64 arithmetic: numbers that are not negative *)

Module Sign.

Import SpecFloat Binary64 FloatFacts Rounding.
Open Scope float_scope.

Lemma Prim2SF_infinity : Prim2SF infinity = S754_infinity false.
Proof. reflexivity. Qed.

(** A positive number divided by +0 is +Infinity. *)
Lemma div_zero_positive u : (0 <? u) = true -> u / 0 = infinity.
Proof.
  intros H. apply Prim2SF_inj. rewrite div_spec, Prim2SF_infinity.
  rewrite ltb_spec in H. change (Prim2SF 0) with (S754_zero false) in *.
  unfold SFltb in H.
  destruct (Prim2SF u) as [s|s| |s m e]; try destruct s; try discriminate; reflexivity.
Qed.

Lemma add_nan_l x : nan + x = nan.
Proof. apply Prim2SF_inj. rewrite add_spec. reflexivity. Qed.

Lemma add_nan_r x : x + nan = nan.
Proof.
  apply Prim2SF_inj. rewrite add_spec. change (Prim2SF nan) with S754_nan.
  destruct (Prim2SF x); reflexivity.
Qed.

Lemma signed_false_notNeg x : signed false x -> notNeg x.
Proof. destruct x; simpl; trivial. Qed.

Lemma leb_zero_notNeg x : (0 <=? x) = true <-> notNeg (Prim2SF x).
Proof.
  rewrite leb_spec. change (Prim2SF 0) with (S754_zero false).
  unfold SFleb. destruct (Prim2SF x) as [s|s| |s m e]; simpl;
    try destruct s; simpl; intuition congruence.
Qed.

Lemma SFmul_notNeg x y :
  notNeg x -> positiveFinite y -> notNeg (SF64mul x y).
Proof.
  intros Hx Hy. destruct y as [| | |[] my ey]; try contradiction. revert Hx.
  unfold SF64mul, SFmul. destruct x as [s|s| |s m e]; simpl; trivial.
  - intros ->. reflexivity.
  - intros ->. apply signed_false_notNeg, binary_round_aux_signed. lia.
Qed.

Lemma SFadd_notNeg x y : notNeg x -> notNeg y -> notNeg (SF64add x y).
Proof.
  unfold SF64add, SFadd.
  destruct x as [s|s| |s m e], y as [s'|s'| |s' m' e']; simpl; trivial;
    try contradiction; try (intros; subst; simpl; trivial; fail).
  - destruct s, s'; simpl; trivial.
  - intros -> ->. cbn [cond_Zopp]. simpl. apply signed_false_notNeg, binary_round_signed.
Qed.

Lemma SFdiv_notNeg x y :
  notNeg x -> positiveFinite y -> notNeg (SF64div x y).
Proof.
  intros Hx Hy. destruct y as [| | |[] my ey]; try contradiction. revert Hx.
  unfold SF64div, SFdiv. destruct x as [s|s| |s m e]; simpl; trivial.
  - intros ->. reflexivity.
  - intros ->. pose proof (SFdiv_core_nonneg m e my ey) as Hq.
    destruct (SFdiv_core_binary prec emax (Zpos m) e (Zpos my) ey) as [[mz ez] lz].
    apply signed_false_notNeg, binary_round_aux_signed, Hq.
Qed.

Close Scope float_scope.
Open Scope Z_scope.

Lemma digits_iter_xO p k :
  digits2_pos (Pos.iter xO p k) = (digits2_pos p + k)%positive.
Proof.
  induction k as [|k IH] using Pos.peano_ind.
  - simpl. lia.
  - rewrite Pos.iter_succ. simpl. rewrite IH. lia.
Qed.

(** The Number of a positive integer below 2^53 is that integer,
    normalised to 53 bits. *)
Lemma of_Z_positive n :
  0 < n < 2 ^ 53 ->
  exists m e, Prim2SF (of_Z n) = S754_finite false m e.
Proof.
  intros [Hn Hlt]. destruct n as [|p|p]; try lia. clear Hn.
  unfold of_Z. cbn [binary_normalize]. unfold binary_round.
  pose proof (digits2_pos_lt p) as Hu. pose proof (digits2_pos_ge p) as Hl.
  set (d := digits2_pos p) in *.
  assert (Hd : Zpos d <= 53).
  { destruct (Z_le_gt_dec (Zpos d) 53) as [H|H]; trivial.
    pose proof (Z.pow_le_mono_r 2 53 (Zpos d - 1) ltac:(lia) ltac:(lia)). lia. }
  assert (Hf : fexp prec emax (Zpos d + 0) = Zpos d - 53).
  { unfold fexp, emin, prec, emax. lia. }
  rewrite Hf.
  assert (Hal : exists mz, shl_align p 0 (Zpos d - 53) = (mz, Zpos d - 53)
                           /\ Zpos (digits2_pos mz) = 53).
  { unfold shl_align. destruct (Zpos d - 53 - 0) as [|k|k] eqn:E; try lia.
    - exists p. split; [f_equal; lia | fold d; lia].
    - exists (Pos.iter xO p k). split; [reflexivity|].
      rewrite digits_iter_xO. fold d. lia. }
  destruct Hal as (mz & -> & Hmz).
  assert (Hshr : forall l, shr_fexp prec emax (Zpos mz) (Zpos d - 53) l
                 = (shr_record_of_loc (Zpos mz) l, Zpos d - 53)).
  { intros l. unfold shr_fexp. cbn [Zdigits2]. rewrite Hmz.
    replace (fexp prec emax (53 + (Zpos d - 53)) - (Zpos d - 53)) with 0
      by (unfold fexp, emin, prec, emax; lia).
    reflexivity. }
  unfold binary_round_aux. rewrite Hshr. cbn [shr_record_of_loc shr_m loc_of_shr_record round_nearest_even].
  rewrite Hshr. cbn [shr_record_of_loc shr_m].
  replace (Zpos d - 53 <=? emax - prec) with true
    by (symmetry; apply Z.leb_le; unfold emax, prec; lia).
  exists mz, (Zpos d - 53). apply Prim2SF_SF2Prim.
  cbn [valid_binary]. unfold bounded, canonical_mantissa.
  rewrite Hmz. apply andb_true_intro. split.
  - apply Z.eqb_eq. unfold fexp, emin, prec, emax. lia.
  - apply Z.leb_le. unfold emax, prec. lia.
Qed.

Lemma round_half_up_small m e :
  e < 0 -> Zpos m < 2 ^ 53 -> 0 <= round_half_up false m e < 2 ^ 53.
Proof.
  intros He Hm. unfold round_half_up. cbn [cond_Zopp].
  assert (Hk : 2 ^ 1 <= 2 ^ (- e)) by (apply Z.pow_le_mono_r; lia).
  change (2 ^ 1) with 2 in Hk.
  replace (- e + 1) with (Z.succ (- e)) by lia. rewrite Z.pow_succ_r by lia.
  set (P := 2 ^ (- e)) in *.
  split.
  - apply Z.div_pos; lia.
  - apply Z.div_lt_upper_bound; [lia|]. nia.
Qed.

Lemma Math_round_notNeg y :
  notNeg (Prim2SF y) -> notNeg (Prim2SF (Math_round y)).
Proof.
  intros H. unfold Math_round.
  pose proof (Prim2SF_valid y) as Hv.
  destruct (Prim2SF y) as [s|s| |s m e] eqn:E; try (now rewrite E).
  simpl in H. subst s.
  destruct (0 <=? e) eqn:He; [now rewrite E|].
  apply Z.leb_gt in He. cbv zeta.
  pose proof (round_half_up_small m e He (valid_mantissa_lt _ _ _ Hv)) as Hr.
  destruct (Z.eqb_spec (round_half_up false m e) 0) as [E0|E0].
  - exact I.
  - destruct (of_Z_positive (round_half_up false m e) ltac:(lia)) as (m' & e' & ->).
    reflexivity.
Qed.

End Sign.

(** ** Binary64 arithmetic: rounding does not cross a bound from below *)

Module UpperBound.

Import SpecFloat Binary64 FloatFacts Rounding Sign.
Open Scope Z_scope.

Lemma shr_1_inexact r :
  0 <= shr_m r -> inexact (shr_1 r) = Z.odd (shr_m r) || inexact r.
Proof.
  destruct r as [m r s]; unfold inexact; simpl.
  destruct m as [|p|p]; simpl; intros H; try lia; trivial.
  destruct p as [p|p|]; simpl; reflexivity.
Qed.

Lemma odd_mod2 m : Z.odd m = true <-> m mod 2 <> 0.
Proof.
  rewrite Zmod_odd. destruct (Z.odd m); split; intros H;
    try lia; try discriminate; reflexivity.
Qed.

Lemma mod_pow_split m a b :
  0 <= m -> 0 <= a -> 0 <= b ->
  (m mod 2 ^ (a + b) <> 0 <-> (m / 2 ^ a) mod 2 ^ b <> 0 \/ m mod 2 ^ a <> 0).
Proof.
  intros Hm Ha Hb. rewrite Z.pow_add_r by lia.
  assert (HA : 0 < 2 ^ a) by (apply Z.pow_pos_nonneg; lia).
  assert (HB : 0 < 2 ^ b) by (apply Z.pow_pos_nonneg; lia).
  rewrite Z.rem_mul_r by lia.
  pose proof (Z.mod_pos_bound m (2 ^ a) HA).
  pose proof (Z.mod_pos_bound (m / 2 ^ a) (2 ^ b) HB).
  nia.
Qed.

(** After a shift, bits were lost exactly when some bit shifted out was
    set or bits had been lost before. *)
Lemma iter_shr_1_inexact p : forall r,
  0 <= shr_m r ->
  (inexact (iter_pos shr_1 p r) = true
   <-> shr_m r mod 2 ^ Zpos p <> 0 \/ inexact r = true).
Proof.
  induction p as [p IH|p IH|]; simpl iter_pos; intros r H.
  - pose proof (shr_1_nonneg r H) as H1.
    pose proof (iter_shr_1_nonneg p _ H1) as H2.
    rewrite IH, IH by trivial.
    rewrite iter_shr_1_div, shr_1_div, shr_1_inexact by trivial.
    rewrite orb_true_iff, odd_mod2.
    replace (Z.pos p~1) with (1 + (Z.pos p + Z.pos p)) by lia.
    rewrite (mod_pow_split (shr_m r) 1 (Z.pos p + Z.pos p)) by lia.
    change (2 ^ 1) with 2.
    rewrite (mod_pow_split (shr_m r / 2) (Z.pos p) (Z.pos p)) by (try apply Z.div_pos; lia).
    tauto.
  - pose proof (iter_shr_1_nonneg p _ H) as H2.
    rewrite IH, IH by trivial. rewrite iter_shr_1_div by trivial.
    replace (Z.pos p~0) with (Z.pos p + Z.pos p) by lia.
    rewrite (mod_pow_split (shr_m r) (Z.pos p) (Z.pos p)) by lia.
    tauto.
  - rewrite shr_1_inexact by trivial. rewrite orb_true_iff, odd_mod2.
    change (2 ^ 1) with 2. tauto.
Qed.

Lemma shr_inexact r e n :
  0 <= shr_m r ->
  (inexact (fst (shr r e n)) = true
   <-> shr_m r mod 2 ^ Z.max 0 n <> 0 \/ inexact r = true).
Proof.
  intros H. destruct n as [|p|p]; cbn [shr fst].
  - change (Z.max 0 0) with 0. rewrite Z.mod_1_r. tauto.
  - change (Z.max 0 (Z.pos p)) with (Z.pos p). now apply iter_shr_1_inexact.
  - change (Z.max 0 (Z.neg p)) with 0. rewrite Z.mod_1_r. tauto.
Qed.

Lemma inexact_of_loc m l :
  inexact (shr_record_of_loc m l) = true <-> l <> loc_Exact.
Proof.
  destruct l as [|[]]; unfold inexact; simpl; split; intros H;
    try discriminate; try reflexivity; try congruence.
Qed.

(** Rounding moves the mantissa up only when bits were lost. *)
Lemma round_nearest_even_up r :
  round_nearest_even (shr_m r) (loc_of_shr_record r) = shr_m r
  \/ (round_nearest_even (shr_m r) (loc_of_shr_record r) = shr_m r + 1
      /\ inexact r = true).
Proof.
  destruct r as [m [] []]; unfold inexact; simpl; auto.
  destruct (Z.even m); auto.
Qed.

Lemma SFltb_val mx ex my ey :
  bounded prec emax mx ex = true -> bounded prec emax my ey = true ->
  SFltb (S754_finite false mx ex) (S754_finite false my ey) = true ->
  val (Zpos mx) ex < val (Zpos my) ey.
Proof.
  intros Hx Hy. apply bounded_canonical in Hx, Hy.
  destruct Hx as [Hx Hxe], Hy as [Hy Hye].
  unfold SFltb. rewrite SFcompare_finite_pos. unfold val.
  assert (HA : 0 < 2 ^ (ex + K)) by (apply Z.pow_pos_nonneg; unfold K; lia).
  destruct (Z.compare_spec ex ey) as [E|E|E]; try discriminate.
  - subst ey. destruct (Pos.compare_spec mx my); try discriminate; intros _; nia.
  - intros _.
    replace (ey + K) with ((ex + K) + (ey - ex)) by lia.
    rewrite (Z.pow_add_r 2 (ex + K) (ey - ex)) by (unfold K; lia).
    assert (H2 : 2 ^ 1 <= 2 ^ (ey - ex)) by (apply Z.pow_le_mono_r; lia).
    change (2 ^ 1) with 2 in H2.
    unfold fexp, emin, prec, emax in Hx, Hy.
    assert (Hdy : Zpos (digits2_pos my) = 53) by lia.
    assert (Hdx : Zpos (digits2_pos mx) <= 53) by lia.
    pose proof (digits2_pos_ge my) as Hmy. rewrite Hdy in Hmy.
    pose proof (digits2_pos_lt mx) as Hmx.
    pose proof (Z.pow_le_mono_r 2 _ 53 ltac:(lia) Hdx) as Hp.
    change (2 ^ (53 - 1)) with 4503599627370496 in Hmy.
    change (2 ^ 53) with 9007199254740992 in Hp.
    set (A := 2 ^ (ex + K)) in *. set (P := 2 ^ (ey - ex)) in *.
    apply Z.lt_le_trans with (9007199254740992 * A);
      [apply Z.mul_lt_mono_pos_r; lia|].
    apply Z.le_trans with (4503599627370496 * (A * 2)); [lia|].
    apply Z.mul_le_mono_nonneg; try lia.
    apply Z.mul_le_mono_nonneg_l; lia.
Qed.

(** Values of canonical positive numbers decide their comparison. *)
Lemma val_SFleb mx ex my ey :
  bounded prec emax mx ex = true -> bounded prec emax my ey = true ->
  val (Zpos mx) ex <= val (Zpos my) ey ->
  SFleb (S754_finite false mx ex) (S754_finite false my ey) = true.
Proof.
  intros Hx Hy Hv.
  destruct (SFleb (S754_finite false mx ex) (S754_finite false my ey)) eqn:E; trivial.
  assert (Hlt : SFltb (S754_finite false my ey) (S754_finite false mx ex) = true).
  { unfold SFleb, SFltb in *. rewrite (SFcompare_antisym (S754_finite false mx ex)).
    rewrite SFcompare_finite_pos in *.
    destruct (Z.compare ex ey); try discriminate; try reflexivity.
    destruct (Pos.compare mx my); try discriminate; reflexivity. }
  pose proof (SFltb_val _ _ _ _ Hy Hx Hlt). lia.
Qed.


Lemma shr_fexp_inexact m e l :
  0 <= m ->
  (inexact (fst (shr_fexp prec emax m e l)) = true
   <-> m mod 2 ^ Z.max 0 (fexp prec emax (Zdigits2 m + e) - e) <> 0
       \/ l <> loc_Exact).
Proof.
  intros H. unfold shr_fexp.
  rewrite shr_inexact by now rewrite shr_m_of_loc.
  rewrite shr_m_of_loc, inexact_of_loc. tauto.
Qed.

(** The rounded result is not above a canonical number that the exact
    value is not above. *)
Lemma binary_round_aux_le mx ex lx mc ec :
  0 <= mx -> - K <= ex ->
  ex <= fexp prec emax (Zdigits2 mx + ex) ->
  bounded prec emax mc ec = true ->
  val mx ex <= val (Zpos mc) ec ->
  (lx <> loc_Exact -> val mx ex < val (Zpos mc) ec) ->
  atMost mc ec (binary_round_aux prec emax false mx ex lx).
Proof.
  intros Hmx Hex Hpre Hc Hv Hvl.
  pose proof Hc as Hcb. apply bounded_canonical in Hc. destruct Hc as [Hc Hce].
  pose proof (digits2_pos_lt mc) as Hcu.
  set (dc := Zpos (digits2_pos mc)) in *.
  assert (Hdc : 0 < dc <= 53) by (unfold fexp, prec in Hc; unfold dc in *; lia).
  set (dx := Zdigits2 mx) in *.
  assert (HA : 0 < 2 ^ (ex + K)) by (apply Z.pow_pos_nonneg; lia).
  assert (HC : 0 < 2 ^ (ec + K)) by (apply Z.pow_pos_nonneg; unfold K; lia).
  set (E := fexp prec emax (dx + ex)) in *.
  assert (HEemin : -1074 <= E) by apply fexp_ge_emin.
  (* the exponent after rounding is at most that of the bound *)
  assert (HE : E <= ec).
  { rewrite Hc. apply fexp_mono.
    destruct (Z.eq_dec mx 0) as [->|Hne].
    - subst E dx. cbn [Zdigits2] in *. unfold fexp, emin, prec, emax in Hpre. lia.
    - pose proof (Zdigits2_bounds mx ltac:(lia)) as [[Hdl _] Hd0].
      fold dx in Hdl, Hd0. unfold val in Hv.
      assert (H1 : 2 ^ (dx - 1 + (ex + K)) <= mx * 2 ^ (ex + K)).
      { rewrite (Z.pow_add_r 2 (dx - 1) (ex + K)) by lia. nia. }
      assert (H2 : Zpos mc * 2 ^ (ec + K) < 2 ^ (dc + (ec + K))).
      { rewrite (Z.pow_add_r 2 dc (ec + K)) by (unfold K; lia). nia. }
      assert (H3 : 2 ^ (dx - 1 + (ex + K)) < 2 ^ (dc + (ec + K))) by lia.
      apply Z.pow_lt_mono_r_iff in H3; unfold K in *; lia. }
  unfold binary_round_aux.
  pose proof (shr_fexp_spec mx ex lx Hmx) as [Hm1 He1].
  pose proof (shr_fexp_inexact mx ex lx Hmx) as Hin1.
  destruct (shr_fexp prec emax mx ex lx) as [mrs' e1]. cbn [fst snd] in Hm1, He1, Hin1.
  fold dx in Hm1, He1, Hin1. fold E in Hm1, He1, Hin1.
  replace (Z.max 0 (E - ex)) with (E - ex) in * by lia.
  set (n1 := E - ex) in *.
  assert (Hn1 : 0 <= n1) by (subst n1; lia).
  assert (Hpn1 : 0 < 2 ^ n1) by (apply Z.pow_pos_nonneg; lia).
  assert (He1' : e1 = E) by (subst e1 n1; lia).
  pose proof (Z.div_mod mx (2 ^ n1) ltac:(lia)) as Hdm.
  pose proof (Z.mod_pos_bound mx (2 ^ n1) Hpn1) as Hmod.
  rewrite <- Hm1 in Hdm.
  assert (Hm1pos : 0 <= shr_m mrs') by (rewrite Hm1; apply Z.div_pos; lia).
  (* values on the grid of [E] *)
  assert (HG : 2 ^ (ex + K) * 2 ^ n1 = 2 ^ (E + K)).
  { rewrite <- Z.pow_add_r by lia. f_equal. subst n1. lia. }
  assert (HGc : 2 ^ (ec + K) = 2 ^ (E + K) * 2 ^ (ec - E)).
  { rewrite <- Z.pow_add_r by (unfold K; lia). f_equal. lia. }
  assert (HEK : 0 < 2 ^ (E + K)) by (apply Z.pow_pos_nonneg; unfold K; lia).
  assert (HP : 0 < 2 ^ (ec - E)) by (apply Z.pow_pos_nonneg; lia).
  unfold val in Hv, Hvl.
  set (M := Zpos mc * 2 ^ (ec - E)).
  assert (HvM : mx * 2 ^ (ex + K) <= M * 2 ^ (E + K)) by (subst M; nia).
  assert (Hm1M : shr_m mrs' <= M).
  { apply Z.mul_le_mono_pos_r with (p := 2 ^ (E + K)); trivial.
    apply Z.le_trans with (mx * 2 ^ (ex + K)); trivial.
    rewrite <- HG. nia. }
  assert (Hstrict : inexact mrs' = true -> shr_m mrs' < M).
  { intros Hi. apply Hin1 in Hi.
    apply Z.mul_lt_mono_pos_r with (p := 2 ^ (E + K)); trivial.
    destruct Hi as [Hi|Hi].
    - apply Z.lt_le_trans with (mx * 2 ^ (ex + K)); trivial.
      rewrite <- HG. nia.
    - specialize (Hvl Hi).
      apply Z.le_lt_trans with (mx * 2 ^ (ex + K)); [rewrite <- HG; nia|].
      subst M. nia. }
  set (m2 := round_nearest_even (shr_m mrs') (loc_of_shr_record mrs')).
  assert (Hm2 : shr_m mrs' <= m2 <= M).
  { subst m2. destruct (round_nearest_even_up mrs') as [->|[-> Hi]]; [lia|].
    specialize (Hstrict Hi). lia. }
  pose proof (shr_fexp_spec m2 e1 loc_Exact ltac:(lia)) as [Hmf Hef].
  destruct (shr_fexp prec emax m2 e1 loc_Exact) as [mrs'' ef]. cbn [fst snd] in Hmf, Hef.
  set (n2 := Z.max 0 (fexp prec emax (Zdigits2 m2 + e1) - e1)) in *.
  assert (Hn2 : 0 <= n2) by (subst n2; lia).
  assert (Hpn2 : 0 < 2 ^ n2) by (apply Z.pow_pos_nonneg; lia).
  pose proof (Z.div_mod m2 (2 ^ n2) ltac:(lia)) as Hdm2.
  pose proof (Z.mod_pos_bound m2 (2 ^ n2) Hpn2) as Hmod2.
  rewrite <- Hmf in Hdm2.
  assert (Hmfpos : 0 <= shr_m mrs'') by (rewrite Hmf; apply Z.div_pos; lia).
  assert (HGf : 2 ^ (ef + K) = 2 ^ (E + K) * 2 ^ n2).
  { rewrite <- Z.pow_add_r by (unfold K; lia). f_equal. lia. }
  assert (Hvf : shr_m mrs'' * 2 ^ (ef + K) <= Zpos mc * 2 ^ (ec + K)).
  { rewrite HGf, HGc.
    apply Z.le_trans with (m2 * 2 ^ (E + K)); [nia|].
    subst M. nia. }
  destruct (shr_m mrs'') as [|p|p] eqn:Ep; try lia; [reflexivity|].
  destruct (Z.leb_spec ef (emax - prec)) as [Hle|Hgt].
  - split; [reflexivity | exact Hvf].
  - exfalso. unfold emax, prec in Hgt.
    (* a result of exponent above 971 has 53 bits and is above the bound *)
    assert (Hbig : 2 ^ 52 <= Zpos p).
    { assert (Hm2pos : 0 < m2).
      { destruct (Z.eq_dec m2 0) as [E0|]; [|lia].
        rewrite E0 in Hmf. rewrite Z.div_0_l in Hmf by lia. lia. }
      pose proof (Zdigits2_bounds m2 Hm2pos) as [[Hd2l Hd2u] Hd20].
      set (d2 := Zdigits2 m2) in *.
      destruct (Z_le_gt_dec n2 0) as [Hz|Hnz].
      - assert (n2 = 0) by lia. assert (ef = E) by lia.
        replace n2 with 0 in Hmf by lia. rewrite Z.div_1_r in Hmf.
        assert (Hmx0 : 0 < mx).
        { destruct (Z.eq_dec mx 0) as [E0|]; [|lia]. exfalso.
          subst E dx. rewrite E0 in *. cbn [Zdigits2] in *.
          unfold fexp, emin, prec, emax in *. lia. }
        pose proof (Zdigits2_bounds mx Hmx0) as [[Hdl Hdu] Hd0]. fold dx in Hdl, Hdu, Hd0.
        assert (HEd : E = dx + ex - 53) by (subst E; unfold fexp, emin, prec, emax in *; lia).
        assert (Hn1' : n1 = dx - 53) by (subst n1; lia).
        assert (Hm1big : 2 ^ 52 <= shr_m mrs').
        { rewrite Hm1. apply Z.div_le_lower_bound; trivial.
          rewrite <- Z.pow_add_r by lia.
          replace (n1 + 52) with (dx - 1) by lia. exact Hdl. }
        lia.
      - assert (Hn2' : n2 = d2 - 53).
        { subst n2. unfold fexp, emin, prec, emax in *. lia. }
        rewrite Hmf. apply Z.div_le_lower_bound; trivial.
        rewrite <- Z.pow_add_r by lia.
        replace (n2 + 52) with (d2 - 1) by lia. exact Hd2l. }
    assert (Hcmax : Zpos mc * 2 ^ (ec + K) < 2 ^ 53 * 2 ^ (971 + K)).
    { pose proof (Z.pow_le_mono_r 2 dc 53 ltac:(lia) ltac:(lia)).
      pose proof (Z.pow_le_mono_r 2 (ec + K) (971 + K) ltac:(lia) ltac:(lia)).
      assert (0 < 2 ^ (971 + K)) by (apply Z.pow_pos_nonneg; unfold K; lia).
      nia. }
    assert (Hfmin : 2 ^ 52 * 2 ^ (972 + K) <= Zpos p * 2 ^ (ef + K)).
    { pose proof (Z.pow_le_mono_r 2 (972 + K) (ef + K) ltac:(lia) ltac:(lia)).
      assert (0 < 2 ^ (972 + K)) by (apply Z.pow_pos_nonneg; unfold K; lia).
      nia. }
    assert (Heq : 2 ^ 53 * 2 ^ (971 + K) = 2 ^ 52 * 2 ^ (972 + K)).
    { rewrite <- !Z.pow_add_r by (unfold K; lia). f_equal; lia. }
    lia.
Qed.


Lemma shl_align_digits mx ex ex' :
  Zpos (digits2_pos (fst (shl_align mx ex ex'))) + snd (shl_align mx ex ex')
  = Zpos (digits2_pos mx) + ex.
Proof.
  unfold shl_align. destruct (ex' - ex) as [|d|d] eqn:E; cbn [fst snd]; trivial.
  rewrite digits_iter_xO. lia.
Qed.

Lemma binary_round_le mx ex mc ec :
  - K <= ex ->
  bounded prec emax mc ec = true ->
  val (Zpos mx) ex <= val (Zpos mc) ec ->
  atMost mc ec (binary_round prec emax false mx ex).
Proof.
  intros Hex Hc Hv. unfold binary_round.
  pose proof (fexp_ge_emin (Zpos (digits2_pos mx) + ex)) as Hf.
  destruct (shl_align_val mx ex (fexp prec emax (Zpos (digits2_pos mx) + ex)))
    as [Hval Hmin]; [lia | unfold K; lia |].
  pose proof (shl_align_digits mx ex (fexp prec emax (Zpos (digits2_pos mx) + ex))) as Hd.
  destruct (shl_align mx ex _) as [mz ez]. cbn [fst snd] in *.
  apply binary_round_aux_le; trivial.
  - lia.
  - unfold K in *. lia.
  - cbn [Zdigits2]. rewrite Hd. lia.
  - lia.
  - congruence.
Qed.

(** The sum of two finite numbers above zero is at most a canonical number
    that the exact sum is at most. *)
Lemma SFadd_le mx ex my ey mc ec :
  - K <= ex -> - K <= ey ->
  bounded prec emax mc ec = true ->
  val (Zpos mx) ex + val (Zpos my) ey <= val (Zpos mc) ec ->
  atMost mc ec (SF64add (S754_finite false mx ex) (S754_finite false my ey)).
Proof.
  intros Hx Hy Hc Hv. unfold SF64add, SFadd. cbn [cond_Zopp].
  pose proof (aligned_val mx ex (Z.min ex ey) ltac:(lia) ltac:(lia)) as H1.
  pose proof (aligned_val my ey (Z.min ex ey) ltac:(lia) ltac:(lia)) as H2.
  set (ax := fst (shl_align mx ex (Z.min ex ey))) in *.
  set (ay := fst (shl_align my ey (Z.min ex ey))) in *.
  change (Zpos ax + Zpos ay) with (Zpos (ax + ay)). cbn [binary_normalize].
  apply binary_round_le; trivial; [lia|].
  rewrite Pos2Z.inj_add. unfold val in *. lia.
Qed.

(** The quotient of two finite numbers above zero is at most a canonical
    number [c] when the dividend is at most [c] times the divisor. *)
Lemma SFdiv_le mx ex my ey mc ec :
  bounded prec emax mx ex = true -> bounded prec emax my ey = true ->
  bounded prec emax mc ec = true ->
  val (Zpos mx) ex * 2 ^ K <= val (Zpos mc) ec * val (Zpos my) ey ->
  atMost mc ec (SF64div (S754_finite false mx ex) (S754_finite false my ey)).
Proof.
  intros Hx Hy Hc Hv. pose proof Hc as Hcb.
  apply bounded_canonical in Hx, Hy. destruct Hx as [Hxc Hx], Hy as [_ Hy].
  unfold SF64div, SFdiv, SFdiv_core_binary, Zdigits2.
  pose proof (digits2_pos_ge mx) as Hxl. pose proof (digits2_pos_lt my) as Hyu.
  set (d1 := Zpos (digits2_pos mx)) in *. set (d2 := Zpos (digits2_pos my)) in *.
  assert (Hd1 : 0 < d1 <= 53) by (unfold fexp, prec in Hxc; unfold d1 in *; lia).
  assert (Hd2 : 0 < d2) by (unfold d2; lia).
  clear Hxc.
  set (F := fexp prec emax (d1 + ex - (d2 + ey))).
  assert (HF : -1074 <= F) by apply fexp_ge_emin.
  set (e' := Z.min F (ex - ey)) in *.
  set (s := ex - ey - e').
  assert (Hs : 0 <= s) by (subst s e'; lia).
  set (m' := match s with Z0 => Zpos mx | Zpos _ => Z.shiftl (Zpos mx) s | Zneg _ => 0 end).
  assert (Hm' : m' = Zpos mx * 2 ^ s).
  { subst m'. destruct s as [|p|p] eqn:E; try lia.
    apply Z.shiftl_mul_pow2. lia. }
  assert (Hqr : m' = Zpos my * fst (Z.div_eucl m' (Zpos my)) + snd (Z.div_eucl m' (Zpos my))
                /\ 0 <= snd (Z.div_eucl m' (Zpos my)) < Zpos my).
  { pose proof (Z_div_mod m' (Zpos my) ltac:(lia)) as H.
    destruct (Z.div_eucl m' (Zpos my)) as [q r]. exact H. }
  destruct (Z.div_eucl m' (Zpos my)) as [q r]. cbn [fst snd] in Hqr. cbn [xorb].
  destruct Hqr as [Hdiv Hr].
  assert (Hps : 0 < 2 ^ s) by (apply Z.pow_pos_nonneg; lia).
  assert (Hq0 : 0 <= q) by nia.
  assert (He' : - K <= e') by (subst e'; unfold K; lia).
  assert (HA : 0 < 2 ^ (e' + K)) by (apply Z.pow_pos_nonneg; lia).
  assert (HY : 0 < 2 ^ (ey + K)) by (apply Z.pow_pos_nonneg; unfold K; lia).
  assert (HK : 0 < 2 ^ K) by (apply Z.pow_pos_nonneg; unfold K; lia).
  (* the value of the dividend on the grid of the quotient *)
  assert (HX : 2 ^ (ex + K) * 2 ^ K = 2 ^ s * 2 ^ (e' + K) * 2 ^ (ey + K)).
  { rewrite <- !Z.pow_add_r by (unfold K; lia). f_equal; subst s; lia. }
  unfold val in Hv.
  assert (Hle : q * 2 ^ (e' + K) * (Zpos my * 2 ^ (ey + K))
                <= Zpos mc * 2 ^ (ec + K) * (Zpos my * 2 ^ (ey + K))).
  { apply Z.le_trans with (Zpos mx * 2 ^ (ex + K) * 2 ^ K); trivial.
    replace (Zpos mx * 2 ^ (ex + K) * 2 ^ K) with (Zpos mx * (2 ^ (ex + K) * 2 ^ K)) by ring.
    rewrite HX.
    replace (Zpos mx * (2 ^ s * 2 ^ (e' + K) * 2 ^ (ey + K)))
      with (m' * (2 ^ (e' + K) * 2 ^ (ey + K))) by (rewrite Hm'; ring).
    replace (q * 2 ^ (e' + K) * (Zpos my * 2 ^ (ey + K)))
      with (Zpos my * q * (2 ^ (e' + K) * 2 ^ (ey + K))) by ring.
    apply Z.mul_le_mono_nonneg_r; nia. }
  assert (Hlt : r <> 0 -> q * 2 ^ (e' + K) * (Zpos my * 2 ^ (ey + K))
                < Zpos mc * 2 ^ (ec + K) * (Zpos my * 2 ^ (ey + K))).
  { intros Hr0.
    apply Z.lt_le_trans with (Zpos mx * 2 ^ (ex + K) * 2 ^ K); trivial.
    replace (Zpos mx * 2 ^ (ex + K) * 2 ^ K) with (Zpos mx * (2 ^ (ex + K) * 2 ^ K)) by ring.
    rewrite HX.
    replace (Zpos mx * (2 ^ s * 2 ^ (e' + K) * 2 ^ (ey + K)))
      with (m' * (2 ^ (e' + K) * 2 ^ (ey + K))) by (rewrite Hm'; ring).
    replace (q * 2 ^ (e' + K) * (Zpos my * 2 ^ (ey + K)))
      with (Zpos my * q * (2 ^ (e' + K) * 2 ^ (ey + K))) by ring.
    apply Z.mul_lt_mono_pos_r; nia. }
  assert (HYpos : 0 < Zpos my * 2 ^ (ey + K)) by nia.
  apply binary_round_aux_le; trivial.
  - (* the quotient is on or above the grid of its own precision *)
    destruct (Z.eq_dec F (-1074)) as [EF|EF].
    + pose proof (fexp_ge_emin (Zdigits2 q + e')). subst e'. lia.
    + assert (HFd : F = d1 + ex - (d2 + ey) - 53).
      { subst F. unfold fexp, emin, prec, emax in *. lia. }
      assert (Hsd : 53 + d2 - d1 <= s) by (subst s e'; lia).
      assert (Hqbig : 2 ^ (d1 - 1 + s - d2) <= q).
      { assert (Hnum : 2 ^ (d1 - 1 + s - d2) * 2 ^ d2 <= m').
        { rewrite <- Z.pow_add_r by lia.
          replace (d1 - 1 + s - d2 + d2) with ((d1 - 1) + s) by lia.
          rewrite Z.pow_add_r by lia. rewrite Hm'. nia. }
        assert (0 < 2 ^ (d1 - 1 + s - d2)) by (apply Z.pow_pos_nonneg; lia).
        destruct (Z_le_gt_dec (2 ^ (d1 - 1 + s - d2)) q) as [H1|H1]; trivial.
        exfalso. assert (q + 1 <= 2 ^ (d1 - 1 + s - d2)) by lia. nia. }
      assert (Hqpos : 0 < q).
      { assert (0 < 2 ^ (d1 - 1 + s - d2)) by (apply Z.pow_pos_nonneg; lia). lia. }
      pose proof (Zdigits2_bounds q Hqpos) as [[_ Hqu] _].
      assert (Hdq : d1 - 1 + s - d2 < Zdigits2 q).
      { apply (Z.pow_lt_mono_r_iff 2); try lia.
        pose proof (Zdigits2_bounds q Hqpos). lia. }
      apply Z.le_trans with F; [subst e'; lia|].
      apply fexp_mono. subst s. lia.
  - unfold val. apply Z.mul_le_mono_pos_r with (p := Zpos my * 2 ^ (ey + K)); trivial.
  - intros Hloc. unfold val.
    apply Z.mul_lt_mono_pos_r with (p := Zpos my * 2 ^ (ey + K)); trivial.
    apply Hlt. intros ->. apply Hloc.
    unfold new_location, new_location_even, new_location_odd.
    destruct (Z.even (Zpos my)); reflexivity.
Qed.

End UpperBound.

(** ** Further properties of the metrics calculation *)

Section FurtherCalculation.

Import SpecFloat Binary64 FloatFacts Rounding Sign UpperBound.
Open Scope float_scope.

(** X9.  With a production volume of 0 nothing is thrown: a usage above
    zero gives the efficiency 0, and a usage of 0 gives NaN, which the
    score inherits. *)
Theorem zero_volume p :
  productionVolume p = 0 ->
  let r := calculateSustainabilityMetrics p in
  ((0 <? waterUsage p) = true -> waterEfficiency r = 0)
  /\ ((0 <? energyConsumption p) = true -> energyEfficiency r = 0)
  /\ (waterUsage p = 0 -> waterEfficiency r = nan /\ sustainabilityScore r = nan)
  /\ (energyConsumption p = 0 -> energyEfficiency r = nan /\ sustainabilityScore r = nan).
Proof.
  intros Hv. cbv zeta. unfold calculateSustainabilityMetrics.
  cbn [waterEfficiency energyEfficiency sustainabilityScore].
  unfold waterEfficiencyRaw, energyEfficiencyRaw. cbv zeta. rewrite Hv.
  split; [|split; [|split]].
  - intros H. rewrite (div_zero_positive _ H). reflexivity.
  - intros H. rewrite (div_zero_positive _ H). reflexivity.
  - intros ->. split; [reflexivity|].
    change (Math_max [0; Math_min [100; 100 - (0 / 0 - 2.5) / 2.5 * 100]]) with nan.
    rewrite add_nan_l. reflexivity.
  - intros ->. split; [reflexivity|].
    change (Math_max [0; Math_min [100; 100 - (0 / 0 - 0.5) / 0.5 * 100]]) with nan.
    rewrite add_nan_r. reflexivity.
Qed.


Lemma zero_volume_witness :
  productionVolume paramsZeroVolume = 0
  /\ waterEfficiency (calculateSustainabilityMetrics paramsZeroVolume) = 0
  /\ energyEfficiency (calculateSustainabilityMetrics paramsZeroVolume) = nan
  /\ sustainabilityScore (calculateSustainabilityMetrics paramsZeroVolume) = nan.
Proof.
  destruct (zero_volume paramsZeroVolume eq_refl) as (Hw & _ & _ & He).
  split; [reflexivity|]. split; [exact (Hw eq_refl)|]. exact (He eq_refl).
Defined.

(** X10.  For usages that are not negative the carbon footprint is a
    number that is not negative. *)
Theorem carbonFootprint_not_negative p :
  (0 <=? energyConsumption p) = true -> (0 <=? wasteGeneration p) = true ->
  (0 <=? carbonFootprint (calculateSustainabilityMetrics p)) = true.
Proof.
  intros He Hw. apply leb_zero_notNeg in He, Hw. apply leb_zero_notNeg.
  unfold calculateSustainabilityMetrics; cbn [carbonFootprint].
  rewrite div_spec. apply SFdiv_notNeg; [|vm_compute; exact I].
  apply Math_round_notNeg.
  rewrite mul_spec. apply SFmul_notNeg; [|vm_compute; exact I].
  rewrite add_spec.
  apply SFadd_notNeg; rewrite mul_spec; apply SFmul_notNeg; trivial;
    vm_compute; exact I.
Qed.

Lemma carbonFootprint_not_negative_witness :
  (0 <=? energyConsumption scenarioA) = true
  /\ (0 <=? wasteGeneration scenarioA) = true
  /\ (0 <=? carbonFootprint (calculateSustainabilityMetrics scenarioA)) = true.
Proof.
  split; [reflexivity|]. split; [reflexivity|].
  apply (carbonFootprint_not_negative scenarioA); reflexivity.
Defined.

Lemma Prim2SF_200 : Prim2SF 200 = S754_finite false m100 (-45).
Proof. vm_compute. reflexivity. Qed.

Lemma Prim2SF_2 : Prim2SF 2 = S754_finite false 4503599627370496 (-51).
Proof. vm_compute. reflexivity. Qed.

Lemma bounded_100 : bounded prec emax m100 (-46) = true.
Proof. reflexivity. Qed.

Lemma bounded_200 : bounded prec emax m100 (-45) = true.
Proof. reflexivity. Qed.

(** A clamped efficiency is +0 or a finite number of at most 100. *)
Lemma clamped_atMost x :
  x = 0 \/ x = 100 \/ ((0 <? x) = true /\ (x <? 100) = true) ->
  atMost m100 (-46) (Prim2SF x).
Proof.
  intros [->|[->|[H0 H100]]].
  - reflexivity.
  - rewrite Prim2SF_100. split; [reflexivity | unfold m100; lia].
  - rewrite ltb_spec in H0, H100.
    change (Prim2SF 0) with (S754_zero false) in H0. rewrite Prim2SF_100 in H100.
    pose proof (Prim2SF_valid x) as Hv.
    destruct (SFltb_between _ _ _ H0 H100) as (m & e & E & _).
    rewrite E in *. split; [reflexivity|].
    apply Z.lt_le_incl, SFltb_val; trivial.
Qed.

Lemma atMost_clamped x :
  atMost m100 (-46) (Prim2SF x) ->
  x = 0 \/ x = 100 \/ ((0 <? x) = true /\ (x <? 100) = true).
Proof.
  intros H. pose proof (Prim2SF_valid x) as Hv.
  destruct (Prim2SF x) as [s|s| |s m e] eqn:E; unfold atMost in H; try contradiction.
  - subst s. left. apply Prim2SF_inj. now rewrite E.
  - destruct H as [-> Hval]. right.
    destruct (SFltb (S754_finite false m e) (S754_finite false m100 (-46))) eqn:Hlt.
    + right. rewrite !ltb_spec, E, Prim2SF_100. split; [reflexivity | exact Hlt].
    + left. apply Prim2SF_inj. rewrite E, Prim2SF_100.
      unfold SFltb in Hlt. rewrite SFcompare_finite_pos in Hlt.
      destruct (Z.compare_spec e (-46)) as [He|He|He]; try discriminate.
      * destruct (Pos.compare_spec m m100) as [Hm|Hm|Hm]; try discriminate.
        -- now subst.
        -- exfalso. subst e. unfold val in Hval.
           assert (HP : (0 < 2 ^ (-46 + K))%Z) by (apply Z.pow_pos_nonneg; unfold K; lia).
           apply Z.mul_le_mono_pos_r in Hval; trivial. lia.
      * exfalso.
        assert (Hgt : SFltb (S754_finite false m100 (-46)) (S754_finite false m e) = true).
        { unfold SFltb. rewrite SFcompare_finite_pos.
          apply Z.compare_gt_iff in He. rewrite (Z.compare_antisym e (-46)), He. reflexivity. }
        pose proof (SFltb_val _ _ _ _ bounded_100 Hv Hgt). lia.
Qed.

Lemma val_200 : val (Zpos m100) (-45) = (2 * val (Zpos m100) (-46))%Z.
Proof.
  change (-45)%Z with (-46 + 1)%Z. rewrite val_shift by (unfold K; lia).
  change (2 ^ 1)%Z with 2%Z. lia.
Qed.

(** The sum of two clamped efficiencies is +0 or at most 200. *)
Lemma sum_atMost w e :
  atMost m100 (-46) (Prim2SF w) -> atMost m100 (-46) (Prim2SF e) ->
  atMost m100 (-45) (Prim2SF (w + e)).
Proof.
  intros Hw He. rewrite add_spec.
  pose proof (val_200) as H200.
  assert (Hpos : (0 < val (Zpos m100) (-46))%Z).
  { unfold val. assert (0 < 2 ^ (-46 + K))%Z by (apply Z.pow_pos_nonneg; unfold K; lia). lia. }
  destruct (Prim2SF w) as [sw|sw| |sw mw ew] eqn:Ew; unfold atMost in Hw; try contradiction;
  destruct (Prim2SF e) as [se|se| |se me ee] eqn:Ee; unfold atMost in He; try contradiction.
  - subst. reflexivity.
  - destruct He as [-> He]. subst sw. cbn [SF64add SFadd atMost].
    split; [reflexivity | lia].
  - destruct Hw as [-> Hw]. subst se. cbn [SF64add SFadd atMost].
    split; [reflexivity | lia].
  - destruct Hw as [-> Hw], He as [-> He].
    apply SFadd_le; [exact (exponent_range _ _ _ _ Ew) | exact (exponent_range _ _ _ _ Ee)
                    | exact bounded_200 | lia].
Qed.

(** Half of +0 or of a number of at most 200 is +0 or at most 100. *)
Lemma half_atMost s :
  atMost m100 (-45) (Prim2SF s) -> atMost m100 (-46) (Prim2SF (s / 2)).
Proof.
  intros Hs. rewrite div_spec, Prim2SF_2.
  destruct (Prim2SF s) as [ss|ss| |ss ms es] eqn:Es; unfold atMost in Hs; try contradiction.
  - subst ss. reflexivity.
  - destruct Hs as [-> Hs].
    apply SFdiv_le; [exact (Prim2SF_bounded _ _ _ _ Es) | reflexivity | exact bounded_100 |].
    rewrite val_200 in Hs.
    assert (Htwo : val (Zpos 4503599627370496) (-51) = (2 * 2 ^ K)%Z).
    { unfold val. change (Zpos 4503599627370496) with (2 ^ 52)%Z.
      rewrite <- Z.pow_add_r by (unfold K; lia).
      replace (52 + (-51 + K))%Z with (Z.succ K) by lia.
      rewrite Z.pow_succ_r by (unfold K; lia). reflexivity. }
    rewrite Htwo.
    assert (0 < 2 ^ K)%Z by (apply Z.pow_pos_nonneg; unfold K; lia). nia.
Qed.

(** X11.  The sustainability score of a well-formed input is an integer
    between 0 and 100. *)
Theorem sustainabilityScore_range p :
  wellFormed p = true ->
  integerIn 0 100 (sustainabilityScore (calculateSustainabilityMetrics p)).
Proof.
  intros H. destruct (wellFormed_scores p H) as [Hw He].
  unfold calculateSustainabilityMetrics; cbn [sustainabilityScore].
  rewrite waterEfficiencyRaw_eq, energyEfficiencyRaw_eq.
  apply Math_round_clamped, atMost_clamped, half_atMost, sum_atMost;
    apply clamped_atMost, clamp_cases; assumption.
Qed.

Lemma sustainabilityScore_range_witness :
  wellFormed paramsTie = true
  /\ integerIn 0 100 (sustainabilityScore (calculateSustainabilityMetrics paramsTie)).
Proof.
  split; [reflexivity|]. apply (sustainabilityScore_range paramsTie). reflexivity.
Defined.

End FurtherCalculation.

(** ** Further properties of the store *)

Section FurtherStore.

Import MapFacts SortFacts StoreFacts.

Lemma reachableStore_execAll cs : forall s,
  reachableStore s -> reachableStore (snd (execAll cs s)).
Proof.
  induction cs as [|c cs IH]; intros s H; [exact H|].
  rewrite execAll_cons. cbn [snd]. apply IH. now constructor.
Qed.

(** One call: a lookup is as before, unless the call deletes that id or
    creates it. *)
Lemma exec_lookup c s i :
  storeInv s ->
  JSMap.get i (scenarios (snd (exec c s))) = JSMap.get i (scenarios s)
  \/ (JSMap.get i (scenarios (snd (exec c s))) = None)
  \/ (i = currentId s /\ JSMap.get i (scenarios s) = None).
Proof.
  intros Hs. destruct c as [j| |ins now|j]; try (left; reflexivity).
  - rewrite exec_create_snd. cbn [scenarios].
    destruct (Z.eq_dec i (currentId s)) as [->|Hne].
    + right; right. split; [reflexivity | now apply storeInv_fresh].
    + left. now apply get_set_other.
  - rewrite exec_delete_snd. cbn [scenarios].
    destruct (Z.eq_dec i j) as [->|Hne].
    + right; left. apply get_delete_same.
    + left. now apply get_delete_other.
Qed.

Lemma exec_currentId_le c s : currentId s <= currentId (snd (exec c s)).
Proof.
  destruct c as [j| |ins now|j];
    rewrite ?exec_create_snd, ?exec_delete_snd; simpl; lia.
Qed.

(** An id below the counter that is not found stays not found. *)
Lemma dead_id_stays_dead cs : forall s i,
  reachableStore s -> i < currentId s ->
  JSMap.get i (scenarios s) = None ->
  JSMap.get i (scenarios (snd (execAll cs s))) = None.
Proof.
  induction cs as [|c cs IH]; intros s i Hr Hlt Hn; [exact Hn|].
  rewrite execAll_cons. cbn [snd].
  pose proof (exec_currentId_le c s).
  apply IH; [now constructor | lia |].
  destruct (exec_lookup c s i (reachableStore_inv s Hr)) as [E|[E|[E _]]];
    [now rewrite E | exact E | lia].
Qed.

(** X1.  Over any run of calls, a stored record is found unchanged under
    its id until it is deleted, and an id that the counter has passed and
    that is not found is never found again. *)
Theorem records_never_change s cs i :
  reachableStore s ->
  let s' := snd (execAll cs s) in
  (forall r, fst (getScenario i s) = Some r ->
     fst (getScenario i s') = Some r \/ fst (getScenario i s') = None)
  /\ (i < currentId s -> fst (getScenario i s) = None ->
      fst (getScenario i s') = None).
Proof.
  intros Hr. cbv zeta. unfold getScenario; cbn [fst].
  split; [|intros; now apply dead_id_stays_dead].
  revert s Hr. induction cs as [|c cs IH]; intros s Hr r Hg; [now left|].
  rewrite execAll_cons. cbn [snd].
  pose proof (reachableStore_inv s Hr) as Hi.
  pose proof (reachableStore_exec s c Hr) as Hr'.
  destruct (exec_lookup c s i Hi) as [E|[E|[_ E]]].
  - apply (IH _ Hr' r). now rewrite E.
  - right. apply dead_id_stays_dead; trivial.
    pose proof (exec_currentId_le c s).
    destruct Hi as (_ & Hf & _). rewrite Forall_forall in Hf.
    apply get_In in Hg. specialize (Hf _ Hg). simpl in Hf. lia.
  - congruence.
Qed.

Lemma records_never_change_witness :
  let s := snd (deleteScenario 2 (newMemStorage 0 0 0)) in
  let cs := [CallCreate ({| name := "A"; params := scenarioA |},
                         calculateSustainabilityMetrics scenarioA) 7;
             CallDelete 1; CallGetAll] in
  reachableStore s
  /\ 2 < currentId s
  /\ fst (getScenario 2 s) = None
  /\ fst (getScenario 2 (snd (execAll cs s))) = None.
Proof.
  cbv zeta.
  assert (Hr : reachableStore (snd (deleteScenario 2 (newMemStorage 0 0 0)))).
  { apply (reachableStore_exec (newMemStorage 0 0 0) (CallDelete 2)), reachableStore_new. }
  split; [exact Hr|]. split; [reflexivity|]. split; [reflexivity|].
  apply (records_never_change _ _ 2 Hr); reflexivity.
Defined.

Lemma filter_absent_length {V} k (m : JSMap.t V) :
  ~ In k (JSMap.keys m) ->
  List.length (filter (fun kv => negb (k =? fst kv)) m) = List.length m.
Proof.
  induction m as [|[k' v] m IH]; simpl; trivial.
  intros H. destruct (Z.eqb_spec k k') as [E|E]; simpl.
  - elim H. auto.
  - rewrite IH; auto.
Qed.

(** Deleting a present key of a Map with distinct keys removes one entry. *)
Lemma delete_present_length {V} k (m : JSMap.t V) :
  NoDup (JSMap.keys m) -> JSMap.has k m = true ->
  S (List.length (snd (JSMap.delete k m))) = List.length m.
Proof.
  unfold JSMap.has, JSMap.delete. cbn [snd].
  induction m as [|[k' v] m IH]; simpl; [discriminate|].
  intros Hnd Hh. inversion Hnd as [|? ? Hn Hnd']; subst.
  destruct (Z.eqb_spec k k') as [E|E]; simpl.
  - subst k'. now rewrite filter_absent_length.
  - rewrite IH; trivial.
Qed.

Lemma Array_sort_length {A} (cmp : A -> A -> Z) l :
  List.length (Array_sort cmp l) = List.length l.
Proof. symmetry. apply Permutation_length, Array_sort_perm. Qed.

Lemma listing_length s :
  List.length (fst (getAllScenarios s)) = List.length (scenarios s).
Proof.
  unfold getAllScenarios; cbn [fst].
  rewrite Array_sort_length. unfold JSMap.values. apply length_map.
Qed.

Lemma exec_count c s :
  storeInv s ->
  (List.length (scenarios (snd (exec c s)))
   + (if isDeleted (fst (exec c s)) then 1 else 0)
   = List.length (scenarios s) + (if isCreated (fst (exec c s)) then 1 else 0))%nat.
Proof.
  intros Hs. pose proof (storeInv_fresh s Hs) as Hfresh.
  destruct Hs as (Hnd & _ & _).
  destruct c as [j| |ins now|j]; try (simpl; lia).
  - rewrite exec_create_snd. cbn [scenarios].
    rewrite (set_fresh _ _ _ Hfresh), length_app. simpl. lia.
  - rewrite exec_delete_snd. cbn [scenarios].
    unfold exec, bind, deleteScenario, ret. cbn [JSMap.delete fst snd isDeleted isCreated].
    destruct (JSMap.has j (scenarios s)) eqn:E; cbn [isDeleted].
    + pose proof (delete_present_length j _ Hnd E) as H. cbn [JSMap.delete snd] in H. lia.
    + pose proof (delete_absent j _ E) as H. apply (f_equal snd) in H.
      cbn [JSMap.delete snd] in H. rewrite H. lia.
Qed.

Lemma execAll_count cs : forall s,
  reachableStore s ->
  (List.length (scenarios (snd (execAll cs s)))
   + List.length (filter isDeleted (fst (execAll cs s)))
   = List.length (scenarios s)
     + List.length (filter isCreated (fst (execAll cs s))))%nat.
Proof.
  induction cs as [|c cs IH]; intros s Hr; [simpl; lia|].
  rewrite execAll_cons. cbn [fst snd filter].
  pose proof (exec_count c s (reachableStore_inv s Hr)) as H1.
  pose proof (IH _ (reachableStore_exec s c Hr)) as H2.
  destruct (isDeleted (fst (exec c s))), (isCreated (fst (exec c s)));
    simpl List.length; lia.
Qed.

(** X2.  The number of scenarios listed at the end of a run from a new
    store is 3, plus the creates, minus the deletes that returned true. *)
Theorem listing_count t1 t2 t3 cs :
  let run := execAll cs (newMemStorage t1 t2 t3) in
  (List.length (fst (getAllScenarios (snd run)))
   + List.length (filter isDeleted (fst run))
   = 3 + List.length (filter isCreated (fst run)))%nat.
Proof.
  cbv zeta. rewrite listing_length.
  apply (execAll_count cs (newMemStorage t1 t2 t3)). constructor.
Qed.

(** X3.  Deleting the id a create has just returned answers true and gives
    the Map back as it was before the create; the counter stays advanced. *)
Theorem create_then_delete s ins now :
  reachableStore s ->
  let sc := fst (createScenario ins now s) in
  let s1 := snd (createScenario ins now s) in
  fst (deleteScenario (id sc) s1) = true
  /\ scenarios (snd (deleteScenario (id sc) s1)) = scenarios s
  /\ currentId (snd (deleteScenario (id sc) s1)) = currentId s + 1.
Proof.
  intros Hr. pose proof (reachableStore_inv s Hr) as Hi.
  pose proof (storeInv_fresh s Hi) as Hfresh.
  cbv zeta. unfold createScenario, deleteScenario, bind, nextId, putScenario, ret.
  cbn [fst snd id scenarios currentId JSMap.delete].
  repeat split.
  - unfold JSMap.has. now rewrite get_set_same.
  - rewrite (set_fresh _ _ _ Hfresh), filter_app. simpl.
    rewrite Z.eqb_refl. simpl. rewrite app_nil_r.
    apply get_None in Hfresh.
    induction (scenarios s) as [|[k v] m IH]; simpl in *; trivial.
    destruct (Z.eqb_spec (currentId s) k) as [E|E]; simpl.
    + elim Hfresh. auto.
    + f_equal. apply IH. tauto.
Qed.

Lemma create_then_delete_witness :
  let s := newMemStorage 0 0 0 in
  let ins := ({| name := "A"; params := scenarioA |},
              calculateSustainabilityMetrics scenarioA) in
  reachableStore s
  /\ scenarios (snd (deleteScenario 4 (snd (createScenario ins 7 s)))) = scenarios s.
Proof.
  cbv zeta. split; [apply reachableStore_new|].
  apply (create_then_delete (newMemStorage 0 0 0) _ 7 (reachableStore_new 0 0 0)).
Defined.

(** X4.  An id below 1 or not below the counter is never stored: the lookup
    finds nothing and the delete returns false and changes nothing; a
    record found under an id carries that id, which is in the range. *)
Theorem lookup_range s i :
  reachableStore s ->
  (i < 1 \/ currentId s <= i ->
     fst (getScenario i s) = None /\ deleteScenario i s = (false, s))
  /\ (forall sc, fst (getScenario i s) = Some sc ->
        id sc = i /\ 1 <= i < currentId s).
Proof.
  intros Hr. destruct (reachableStore_inv s Hr) as (_ & Hf & _).
  rewrite Forall_forall in Hf. unfold getScenario; cbn [fst].
  assert (Hs : forall sc, JSMap.get i (scenarios s) = Some sc ->
                 id sc = i /\ 1 <= i < currentId s).
  { intros sc H. apply get_In in H. exact (Hf _ H). }
  split; [|exact Hs].
  intros Hout.
  assert (Hn : JSMap.get i (scenarios s) = None).
  { destruct (JSMap.get i (scenarios s)) as [sc|] eqn:E; trivial.
    specialize (Hs sc eq_refl). lia. }
  split; [exact Hn|].
  unfold deleteScenario.
  assert (Hh : JSMap.has i (scenarios s) = false) by (unfold JSMap.has; now rewrite Hn).
  rewrite (delete_absent _ _ Hh). now destruct s.
Qed.

Lemma lookup_range_witness :
  reachableStore (newMemStorage 0 0 0)
  /\ fst (getScenario 4 (newMemStorage 0 0 0)) = None
  /\ deleteScenario 0 (newMemStorage 0 0 0) = (false, newMemStorage 0 0 0).
Proof.
  split; [apply reachableStore_new|]. split.
  - apply (lookup_range (newMemStorage 0 0 0) 4 (reachableStore_new 0 0 0)).
    right. simpl. lia.
  - apply (lookup_range (newMemStorage 0 0 0) 0 (reachableStore_new 0 0 0)).
    left. lia.
Defined.

(** The Map of a reachable store lists its keys in increasing order. *)
Lemma keys_sorted s : reachableStore s -> StronglySorted Z.lt (JSMap.keys (scenarios s)).
Proof.
  induction 1 as [t1 t2 t3|s c Hr IH].
  - change (JSMap.keys (scenarios (newMemStorage t1 t2 t3))) with [1; 2; 3].
    repeat constructor; lia.
  - pose proof (reachableStore_inv s Hr) as Hi.
    pose proof (storeInv_fresh s Hi) as Hfresh.
    destruct Hi as (_ & Hf & _).
    destruct c as [j| |ins now|j]; trivial.
    + rewrite exec_create_snd. cbn [scenarios].
      rewrite (set_fresh _ _ _ Hfresh). unfold JSMap.keys in *.
      rewrite map_app. simpl.
      assert (Hlt : Forall (fun k => k < currentId s) (map fst (scenarios s))).
      { apply Forall_map. eapply Forall_impl; [|exact Hf]. simpl. intros; lia. }
      clear Hf Hfresh.
      induction IH as [|k l Hs IHs Hk]; simpl.
      * repeat constructor.
      * inversion Hlt; subst. constructor; [now apply IHs|].
        apply Forall_app. split; trivial. repeat constructor. trivial.
    + rewrite exec_delete_snd. cbn [scenarios JSMap.delete snd].
      unfold JSMap.keys in *. clear Hf Hfresh.
      induction (scenarios s) as [|[k v] m IHm]; simpl in *; [constructor|].
      inversion IH as [|? ? Hs Hk]; subst.
      destruct (negb (j =? k)); simpl; [|now apply IHm].
      constructor; [now apply IHm|].
      apply Forall_forall. intros x Hx. rewrite Forall_forall in Hk. apply Hk.
      apply in_map_iff in Hx. destruct Hx as (kv & E & Hin).
      apply filter_In in Hin. apply in_map_iff. exists kv. tauto.
Qed.

Lemma values_sorted_by_id s :
  reachableStore s ->
  StronglySorted (fun a b => id a < id b) (JSMap.values (scenarios s)).
Proof.
  intros Hr. pose proof (keys_sorted s Hr) as Hk.
  destruct (reachableStore_inv s Hr) as (_ & Hf & _).
  unfold JSMap.keys, JSMap.values in *.
  induction (scenarios s) as [|[k v] m IH]; simpl in *; [constructor|].
  inversion Hk as [|? ? Hs Hlt]; subst. inversion Hf as [|? ? Hkv Hf']; subst.
  simpl in Hkv. constructor; [now apply IH|].
  rewrite Forall_forall in *. intros x Hx.
  apply in_map_iff in Hx. destruct Hx as ([k' x'] & E & Hin). simpl in E; subst x'.
  pose proof (Hf' _ Hin) as [Hid _]. simpl in Hid.
  assert (k < k') by (apply Hlt; apply in_map_iff; exists (k', x); auto).
  lia.
Qed.

(** The stable sort of a list that is in increasing order of a second key:
    the result is ordered by the comparator first and the second key next. *)
Lemma sort_insert_lex {A} (key sub : A -> Z) a l :
  let cmp := fun x y => key y - key x in
  let lex := fun x y => key y < key x \/ (key x = key y /\ sub x < sub y) in
  Forall (fun x => sub a < sub x) l ->
  StronglySorted lex l ->
  StronglySorted lex (sort_insert cmp a l).
Proof.
  cbv zeta. intros Ha Hs. induction Hs as [|b l Hs IH Hb]; simpl.
  - repeat constructor.
  - inversion Ha as [|? ? Hab Ha']; subst.
    destruct (Z.leb_spec (key b - key a) 0) as [E|E].
    + constructor; [now constructor|].
      constructor; [lia|].
      rewrite Forall_forall in *. intros x Hx.
      specialize (Hb x Hx). specialize (Ha' x Hx). lia.
    + constructor; [now apply IH|].
      eapply Permutation_Forall; [apply sort_insert_perm|].
      constructor; [lia | exact Hb].
Qed.

Lemma Array_sort_lex {A} (key sub : A -> Z) l :
  let cmp := fun x y => key y - key x in
  let lex := fun x y => key y < key x \/ (key x = key y /\ sub x < sub y) in
  StronglySorted (fun x y => sub x < sub y) l ->
  StronglySorted lex (Array_sort cmp l).
Proof.
  cbv zeta. induction 1 as [|a l Hs IH Ha]; simpl; [constructor|].
  apply (sort_insert_lex key sub); trivial.
  eapply Permutation_Forall; [apply Array_sort_perm | exact Ha].
Qed.

(** X5.  The listing is newest first, and records with the same stamp are
    listed in the order of their ids. *)
Theorem listing_order s :
  reachableStore s ->
  StronglySorted listedBefore (fst (getAllScenarios s)).
Proof.
  intros Hr. unfold getAllScenarios; cbn [fst].
  apply (Array_sort_lex createdAt id), values_sorted_by_id, Hr.
Qed.

Lemma listing_order_witness :
  reachableStore (newMemStorage 5 5 5)
  /\ StronglySorted listedBefore (fst (getAllScenarios (newMemStorage 5 5 5))).
Proof.
  split; [apply reachableStore_new|].
  apply (listing_order _ (reachableStore_new 5 5 5)).
Defined.

Lemma Array_sort_newest {A} (cmp : A -> A -> Z) l x :
  Forall (fun a => 0 < cmp a x) l ->
  Array_sort cmp (l ++ [x]) = x :: Array_sort cmp l.
Proof.
  induction 1 as [|a l Ha Hl IH]; simpl; [reflexivity|].
  rewrite IH. simpl.
  destruct (Z.leb_spec (cmp a x) 0); [lia | reflexivity].
Qed.

(** X6.  A record created with a stamp later than every stored one heads
    the listing, and the rest of the listing is as before. *)
Theorem created_listed_first s ins now :
  reachableStore s ->
  Forall (fun x => createdAt x < now) (JSMap.values (scenarios s)) ->
  fst (getAllScenarios (snd (createScenario ins now s)))
  = fst (createScenario ins now s) :: fst (getAllScenarios s).
Proof.
  intros Hr Hnew. pose proof (storeInv_fresh s (reachableStore_inv s Hr)) as Hfresh.
  unfold getAllScenarios, createScenario, bind, nextId, putScenario, ret.
  cbn [fst snd scenarios].
  rewrite (set_fresh _ _ _ Hfresh). unfold JSMap.values in *.
  rewrite map_app. simpl map.
  apply Array_sort_newest.
  eapply Forall_impl; [|exact Hnew]. simpl. intros; lia.
Qed.

Lemma created_listed_first_witness :
  let s := newMemStorage 1 2 3 in
  let ins := ({| name := "A"; params := scenarioA |},
              calculateSustainabilityMetrics scenarioA) in
  reachableStore s
  /\ Forall (fun x => createdAt x < 10) (JSMap.values (scenarios s))
  /\ map id (fst (getAllScenarios (snd (createScenario ins 10 s))))
     = 4 :: map id (fst (getAllScenarios s)).
Proof.
  cbv zeta.
  assert (Hnew : Forall (fun x => createdAt x < 10)
                   (JSMap.values (scenarios (newMemStorage 1 2 3))))
    by (repeat constructor).
  split; [apply reachableStore_new|]. split; [exact Hnew|].
  rewrite (created_listed_first (newMemStorage 1 2 3) _ 10 (reachableStore_new 1 2 3) Hnew).
  reflexivity.
Defined.

End FurtherStore.

(** ** Further properties of the request handlers *)

Section FurtherHandlers.

Import MapFacts SortFacts StoreFacts.

(** X7.  A request answered with a status other than 200, and every read
    request, leaves the store as it was. *)
Theorem errors_and_reads_keep_store r s :
  (status (fst (handle r s)) <> 200 -> snd (handle r s) = s)
  /\ (isReadOnly r = true -> snd (handle r s) = s).
Proof.
  destruct r as [|idParam|b|b now|idParam]; simpl.
  - split; reflexivity.
  - unfold handleGetScenario. destruct (parseInt idParam) as [i|]; [|split; reflexivity].
    unfold bind, getScenario. destruct (JSMap.get i (scenarios s)); split; reflexivity.
  - unfold handleCalculateMetrics.
    destruct (processParametersSchema b); split; reflexivity.
  - split; [|discriminate]. unfold handleCreateScenario.
    destruct (insertScenarioSchema b); [|reflexivity].
    unfold bind, ret. simpl. intros H. now elim H.
  - split; [|discriminate]. unfold handleDeleteScenario.
    destruct (parseInt idParam) as [i|]; [|reflexivity].
    unfold bind, deleteScenario.
    destruct (JSMap.has i (scenarios s)) eqn:E.
    + simpl. rewrite E. simpl. intros H. now elim H.
    + rewrite (delete_absent _ _ E). intros _. simpl. now destruct s.
Qed.

Lemma digit_digitChar d : 0 <= d < 10 -> digit 10 (digitChar d) = Some d.
Proof.
  intros H.
  assert (E : d = 0 \/ d = 1 \/ d = 2 \/ d = 3 \/ d = 4 \/ d = 5 \/ d = 6
              \/ d = 7 \/ d = 8 \/ d = 9) by lia.
  repeat (destruct E as [->|E]; [reflexivity|]). now subst.
Qed.

Lemma digits_decimalOnto fuel : forall n rest,
  0 <= n -> (Z.to_nat n <= fuel)%nat ->
  digits 10 (decimalOnto fuel n rest) None = digits 10 rest (Some n).
Proof.
  induction fuel as [|fuel IH]; intros n rest Hn Hf.
  - assert (n = 0) by lia. subst n. reflexivity.
  - cbn [decimalOnto]. pose proof (Z.mod_pos_bound n 10 ltac:(lia)) as Hm.
    destruct (Z.ltb_spec n 10) as [E|E].
    + cbn [digits]. rewrite digit_digitChar by lia.
      now rewrite Z.mod_small by lia.
    + rewrite IH.
      * cbn [digits]. rewrite digit_digitChar by lia. do 2 f_equal.
        pose proof (Z.div_mod n 10 ltac:(lia)). lia.
      * apply Z.div_pos; lia.
      * assert (n / 10 < n) by (apply Z.div_lt; lia).
        pose proof (Z.div_pos n 10 ltac:(lia) ltac:(lia)). lia.
Qed.

Lemma decimalOnto_allDigits fuel : forall n rest,
  0 <= n -> allDigits rest -> allDigits (decimalOnto fuel n rest).
Proof.
  induction fuel as [|fuel IH]; intros n rest Hn Hr; cbn [decimalOnto];
    pose proof (Z.mod_pos_bound n 10 ltac:(lia)) as Hm.
  - split; [exists (n mod 10); split; [lia | reflexivity] | exact Hr].
  - destruct (n <? 10).
    + split; [exists (n mod 10); split; [lia | reflexivity] | exact Hr].
    + apply IH; [apply Z.div_pos; lia|].
      split; [exists (n mod 10); split; [lia | reflexivity] | exact Hr].
Qed.

Lemma decimalOnto_nonempty fuel : forall n rest, decimalOnto fuel n rest <> ""%string.
Proof.
  induction fuel as [|fuel IH]; intros n rest; cbn [decimalOnto]; [discriminate|].
  destruct (n <? 10); [discriminate | apply IH].
Qed.

Ltac digit_cases d H :=
  let E := fresh "E" in
  assert (E : d = 0 \/ d = 1 \/ d = 2 \/ d = 3 \/ d = 4 \/ d = 5 \/ d = 6
              \/ d = 7 \/ d = 8 \/ d = 9) by lia;
  clear H; repeat (destruct E as [->|E]; [|]); [.. | subst d].

(** On a text of decimal digits [parseInt] reads the whole text. *)
Lemma parseInt_allDigits s :
  s <> ""%string -> allDigits s -> parseInt s = digits 10 s None.
Proof.
  destruct s as [|c s']; [congruence|]. intros _ [(d & Hd & ->) Hs'].
  assert (Hsign : forall x, parseInt (String (digitChar d) x)
            = match (if (d =? 0) then
                       match x with
                       | String "x" rest => digits 16 rest None
                       | String "X" rest => digits 16 rest None
                       | _ => digits 10 (String (digitChar d) x) None
                       end
                     else digits 10 (String (digitChar d) x) None) with
              | Some m => Some (1 * m) | None => None end).
  { intros x. digit_cases d Hd; try reflexivity.
    all: destruct x as [|c2 x']; try reflexivity.
    all: destruct c2 as [[] [] [] [] [] [] [] []]; reflexivity. }
  rewrite Hsign. clear Hsign.
  assert (Hx : (if d =? 0
     then match s' with
          | String "x" rest | String "X" rest => digits 16 rest None
          | _ => digits 10 (String (digitChar d) s') None
          end
     else digits 10 (String (digitChar d) s') None)
     = digits 10 (String (digitChar d) s') None).
  { destruct (d =? 0); [|reflexivity].
    destruct s' as [|c2 s'']; [reflexivity|].
    destruct Hs' as [(d2 & Hd2 & ->) _].
    digit_cases d2 Hd2; reflexivity. }
  rewrite Hx. destruct (digits 10 _ None) as [m|]; [|reflexivity].
  f_equal. lia.
Qed.

(** [parseInt] reads the decimal text of a non-negative integer back. *)
Lemma parseInt_decimal n : 0 <= n -> parseInt (decimal n) = Some n.
Proof.
  intros Hn. unfold decimal.
  rewrite parseInt_allDigits.
  - now rewrite digits_decimalOnto by lia.
  - apply decimalOnto_nonempty.
  - now apply decimalOnto_allDigits.
Qed.

(** X8.  Every scenario of the listing is served by the get handler under
    the decimal text of its id; the delete handler under that text answers
    200, after which the get handler answers 404. *)
Theorem served_by_decimal_id s sc :
  reachableStore s ->
  In sc (fst (getAllScenarios s)) ->
  handleGetScenario (decimal (id sc)) s = (res_json (JsonScenario sc), s)
  /\ fst (handleDeleteScenario (decimal (id sc)) s)
       = res_json (JsonMessage "Scenario deleted successfully")
  /\ fst (handleGetScenario (decimal (id sc))
            (snd (handleDeleteScenario (decimal (id sc)) s)))
       = res_status 404 "Scenario not found".
Proof.
  intros Hr Hin.
  apply (getAllScenarios_lists_store s Hr) in Hin. unfold getScenario in Hin; cbn [fst] in Hin.
  destruct (reachableStore_inv s Hr) as (_ & Hf & _). rewrite Forall_forall in Hf.
  pose proof (Hf _ (get_In _ _ _ Hin)) as [_ Hrange]. simpl in Hrange.
  assert (Hp : parseInt (decimal (id sc)) = Some (id sc)) by (apply parseInt_decimal; lia).
  unfold handleGetScenario, handleDeleteScenario. rewrite Hp.
  unfold bind, getScenario, deleteScenario, JSMap.delete, JSMap.has.
  rewrite Hin. cbn [fst snd scenarios ret].
  repeat split.
  change (filter (fun kv => negb (id sc =? fst kv)) (scenarios s))
    with (snd (JSMap.delete (id sc) (scenarios s))).
  now rewrite get_delete_same.
Qed.

Lemma served_by_decimal_id_witness :
  let s := newMemStorage 0 0 0 in
  reachableStore s
  /\ match fst (getScenario 3 s) with
     | Some sc => In sc (fst (getAllScenarios s))
                  /\ handleGetScenario "3" s = (res_json (JsonScenario sc), s)
     | None => False
     end.
Proof.
  cbv zeta. split; [apply reachableStore_new|].
  lazymatch eval cbv in (fst (getScenario 3 (newMemStorage 0 0 0))) with
  | Some ?x => change (fst (getScenario 3 (newMemStorage 0 0 0))) with (Some x);
               cbv iota;
               assert (Hin : In x (fst (getAllScenarios (newMemStorage 0 0 0))))
                 by (right; right; left; reflexivity);
               split; [exact Hin|];
               exact (proj1 (served_by_decimal_id (newMemStorage 0 0 0) x
                               (reachableStore_new 0 0 0) Hin))
  end.
Defined.

End FurtherHandlers.
